(** * Annotation_protein_filter.py: the protein FASTA preprocessing pipeline

    A shallow embedding of [process_chunk] and of [main] (chunked dispatch
    to a worker pool, result merging and reporting, the external length and
    clustering stages, the duplicate-identifier renaming pass), together
    with the properties its specification states about them.

    Modelling conventions.
    - A Python [str] is a [string] of 8-bit characters; [str.upper] maps
      the letters a-z to A-Z and leaves every other character alone, which
      is what it does on ASCII text.
    - A [SeqRecord] carries the three attributes the program reads or
      writes: [id], [description] and [seq].  [seq] holds the bytes of the
      sequence as the reader stored them; [str(record.seq)] decodes them
      as ASCII and raises [UnicodeDecodeError] at a byte of 128 or more.
    - Python sets and dicts are stdpp's [gset] and [gmap].
    - The file system is a finite map from paths to file contents.  The
      files of the private temporary directory are local values of [main].
    - An exception is a value of [exn]; code that can raise returns a
      [result]. *)

From Stdlib Require Import Ascii String.
From stdpp Require Import gmap strings list pretty.

(** ** Data model *)

Module SeqRecord.
Record t : Type := mk { id : string; description : string; seq : string }.

#[global] Instance eq_dec : EqDecision t.
Proof. solve_decision. Defined.
End SeqRecord.

(** What [process_chunk] returns: the records kept, and for every record
    removed its identifier with its upper-cased sequence. *)
Abbreviation PartitionResult :=
  (list SeqRecord.t * list (string * string))%type (only parsing).

(** ** Strings *)

(** [c.upper()] for one character. *)
Definition upper_char (c : ascii) : ascii :=
  let n := Ascii.N_of_ascii c in
  if ((97 <=? n) && (n <=? 122))%N then Ascii.ascii_of_N (n - 32) else c.

(** [s.upper()] *)
Fixpoint upper (s : string) : string :=
  match s with
  | EmptyString => EmptyString
  | String c s' => String (upper_char c) (upper s')
  end.

(** [set(s)]: the set of the characters of [s]. *)
Definition set_of_str (s : string) : gset ascii :=
  list_to_set (list_ascii_of_string s).

(** ** Exceptions and results *)

Inductive exn : Type :=
| FileNotFoundError (path : string)
| PermissionError (path : string)
| ValueError (msg : string)
| CalledProcessError (returncode : Z)
| UnicodeDecodeError (object : string) (start : nat).

Inductive result (A : Type) : Type :=
| Returned (a : A)
| Raised (e : exn).
Arguments Returned {A} a.
Arguments Raised {A} e.

(** A [for] loop over a list whose body may raise and touches no file. *)
Fixpoint fold_result {A S} (body : S → A → result S) (s : S) (l : list A) : result S :=
  match l with
  | [] => Returned s
  | x :: l' =>
      match body s x with
      | Returned s' => fold_result body s' l'
      | Raised e => Raised e
      end
  end.

(** A future that is done: what its [result()] returns or re-raises. *)
Abbreviation Future := result (only parsing).

(** [executor.submit(fn, chunk, standard_aa)]: the future holds what the
    call returns or the exception it raises. *)
Definition submit {A B C} (fn : A → B → result C) (a : A) (b : B) : Future C :=
  fn a b.

(** ** The alphabet filter *)

(** The position of the first byte of 128 or more, counted from [pos]. *)
Fixpoint first_non_ascii (data : string) (pos : nat) : option nat :=
  match data with
  | EmptyString => None
  | String c data' =>
      if (Ascii.N_of_ascii c <? 128)%N then first_non_ascii data' (S pos)
      else Some pos
  end.

(** [str(record.seq)]: the bytes decoded as ASCII. *)
Definition str_of_seq (data : string) : result string :=
  match first_non_ascii data 0 with
  | None => Returned data
  | Some start => Raised (UnicodeDecodeError data start)
  end.

(** One iteration of the loop of [process_chunk]. *)
Definition process_record (standard_aa : gset ascii)
    (acc : PartitionResult) (record : SeqRecord.t) : result PartitionResult :=
  let '(kept, removed) := acc in
  match str_of_seq (SeqRecord.seq record) with
  | Raised e => Raised e
  | Returned text =>
      let seq := upper text in
      if bool_decide (set_of_str seq ⊆ standard_aa)
      then Returned (kept ++ [record], removed)
      else Returned (kept, removed ++ [(SeqRecord.id record, seq)])
  end.

Definition process_chunk (records : list SeqRecord.t)
    (standard_aa : gset ascii) : result PartitionResult :=
  fold_result (process_record standard_aa) ([], []) records.

(** [set("ACDEFGHIKLMNPQRSTVWY")], extended by [update("UO")] under
    [--keep-uo]. *)
Definition standard_aa_of (keep_uo : bool) : gset ascii :=
  let standard_aa := set_of_str "ACDEFGHIKLMNPQRSTVWY" in
  if keep_uo then standard_aa ∪ set_of_str "UO" else standard_aa.

(** ** The file system *)

Abbreviation FileSystem := (gmap string string) (only parsing).

(** Code that reads and writes files and may raise. *)
Definition IO (A : Type) : Type := FileSystem → result A * FileSystem.

#[global] Instance IO_ret : MRet IO := λ A a fs, (Returned a, fs).
#[global] Instance IO_bind : MBind IO := λ A B k m fs,
  match m fs with
  | (Returned a, fs') => k a fs'
  | (Raised e, fs') => (Raised e, fs')
  end.

Definition raise {A} (e : exn) : IO A := λ fs, (Raised e, fs).

Definition lift {A} (r : result A) : IO A := λ fs, (r, fs).

(** [open(path, 'w')] and what is written before the file is closed. *)
Definition write_file (path text : string) : IO unit :=
  λ fs, (Returned (), <[path := text]> fs).

(** [open(path, 'a')] and what is written before the file is closed. *)
Definition append_file (path text : string) : IO unit :=
  λ fs, (Returned (), <[path := default "" (fs !! path) +:+ text]> fs).

(** [open(path)] followed by [read()], where the paths in [denied] exist
    but may not be read. *)
Definition open_read (denied : gset string) (path : string) : IO string :=
  λ fs, match fs !! path with
        | Some text =>
            if bool_decide (path ∈ denied) then (Raised (PermissionError path), fs)
            else (Returned text, fs)
        | None => (Raised (FileNotFoundError path), fs)
        end.

(** A [for] loop whose body may raise. *)
Fixpoint for_each {A S} (body : S → A → IO S) (s : S) (l : list A) : IO S :=
  match l with
  | [] => mret s
  | x :: l' => s' ← body s x; for_each body s' l'
  end.

(** The status the interpreter exits with: 1 after an uncaught exception. *)
Definition exit_status {A} (r : result A) : Z :=
  match r with Returned _ => 0 | Raised _ => 1 end.

Definition tab : string := String (Ascii.ascii_of_nat 9) "".
Definition newline : string := String (Ascii.ascii_of_nat 10) "".

(** ** The pipeline *)

Section Pipeline.

(** The type of the [--identity] value, which is only handed on. *)
Variable float : Type.

(** [SeqIO.parse(handle, "fasta")] on the text of a file, iterated to its
    end: the records it yields, or the exception it raises, be it at the
    first record or after some.  The batches submitted before the reader
    raises are never merged, since the exception leaves the loop of lines
    64 to 71 before the loop of line 73 starts, so they leave no trace in
    the files.  [SeqIO.write(records, handle, "fasta")] is the text it
    writes. *)
Variable SeqIO_parse : string → result (list SeqRecord.t).
Variable SeqIO_write : list SeqRecord.t → string.

(** The external tools: exit status and the files they leave.
    [seqkit_seq threads min_len max_len input]; [cd_hit input identity
    threads] also gives the [.clstr] file when it wrote one. *)
Variable seqkit_seq : Z → Z → Z → string → Z * string.
Variable cd_hit : string → float → Z → Z * string * option string.

Record Args : Type := {
  input : string;
  output : string;
  report : string;
  threads : Z;
  chunk : Z;
  keep_uo : bool;
  min_len : Z;
  max_len : Z;
  identity : float;
  skip_length : bool;
  skip_cdhit : bool
}.

(** *** Step 1: reading the input into chunks *)

Record Reader : Type := {
  input_count : nat;
  cur_chunk : list SeqRecord.t;
  futures : list (Future PartitionResult)
}.

Definition read_record (chunk_size : Z) (standard_aa : gset ascii)
    (st : Reader) (record : SeqRecord.t) : Reader :=
  let chunk := cur_chunk st ++ [record] in
  if bool_decide (chunk_size ≤ Z.of_nat (length chunk))%Z
  then {| input_count := S (input_count st);
          cur_chunk := [];
          futures := futures st ++ [submit process_chunk chunk standard_aa] |}
  else {| input_count := S (input_count st);
          cur_chunk := chunk;
          futures := futures st |}.

Definition read_chunks (chunk_size : Z) (standard_aa : gset ascii)
    (records : list SeqRecord.t) : Reader :=
  let st := foldl (read_record chunk_size standard_aa)
              {| input_count := 0; cur_chunk := []; futures := [] |} records in
  match cur_chunk st with
  | [] => st
  | chunk =>
      {| input_count := input_count st;
         cur_chunk := chunk;
         futures := futures st ++ [submit process_chunk chunk standard_aa] |}
  end.

(** *** Step 1: merging the results *)

Record Merger : Type := {
  total_kept : nat;
  total_removed : nat;
  temp_files : list (list SeqRecord.t)
}.

Definition report_line (entry : string * string) : string :=
  entry.1 +:+ tab +:+ entry.2 +:+ newline.

Definition report_text (removed : list (string * string)) : string :=
  foldl (λ text entry, text +:+ report_line entry) "" removed.

(** The body of [for future in as_completed(futures)].  A temporary file
    is kept as the records [SeqIO.write] put into it. *)
Definition merge_future (report_path : string) (st : Merger)
    (future : Future PartitionResult) : IO Merger :=
  '(kept, removed) ← lift future;
  let temp_files' :=
    match kept with [] => temp_files st | _ => temp_files st ++ [kept] end in
  _ ← match removed with
      | [] => mret ()
      | _ => append_file report_path (report_text removed)
      end;
  mret {| total_kept := total_kept st + length kept;
          total_removed := total_removed st + length removed;
          temp_files := temp_files' |}.

Definition merge_futures (report_path : string)
    (completed : list (Future PartitionResult)) : IO Merger :=
  for_each (merge_future report_path)
    {| total_kept := 0; total_removed := 0; temp_files := [] |} completed.

(** Lines 41 to 87 of [main]: the report is truncated, the pool is
    created, the input is read into chunks, and the results are merged in
    the order [as_completed] yields them. *)
Definition alphabet_stage_in (denied : gset string)
    (as_completed : list (Future PartitionResult) → list (Future PartitionResult))
    (args : Args) : IO (Reader * Merger) :=
  let standard_aa := standard_aa_of (keep_uo args) in
  _ ← write_file (report args) "";
  _ ← (if bool_decide (threads args ≤ 0)%Z
       then raise (ValueError "max_workers must be greater than 0")
       else mret ());
  text ← open_read denied (input args);
  records ← lift (SeqIO_parse text);
  let rd := read_chunks (chunk args) standard_aa records in
  mg ← merge_futures (report args) (as_completed (futures rd));
  mret (rd, mg).

(** The stage where every file that exists may be read. *)
Definition alphabet_stage
    (as_completed : list (Future PartitionResult) → list (Future PartitionResult))
    (args : Args) : IO (Reader * Merger) :=
  alphabet_stage_in ∅ as_completed args.

(** *** Steps 2 and 3: the external tools *)

Definition length_filter (input_file : string) (min_len max_len threads : Z)
    : result string :=
  let '(returncode, output_file) := seqkit_seq threads min_len max_len input_file in
  if bool_decide (returncode = 0%Z) then Returned output_file
  else Raised (CalledProcessError returncode).

Definition cd_hit_cluster (input_file : string) (identity : float) (threads : Z)
    : result (string * option string) :=
  let '(returncode, output_file, cluster_file) := cd_hit input_file identity threads in
  if bool_decide (returncode = 0%Z) then Returned (output_file, cluster_file)
  else Raised (CalledProcessError returncode).

(** [sum(1 for _ in SeqIO.parse(path, "fasta"))] *)
Definition count_records (text : string) : result Z :=
  match SeqIO_parse text with
  | Returned records => Returned (Z.of_nat (length records))
  | Raised e => Raised e
  end.

(** *** Step 4: renaming duplicate identifiers *)

Record Renamer : Type := {
  id_count : gmap string nat;
  unique_ids : nat;
  duplicate_ids : nat;
  written : list SeqRecord.t
}.

Definition rename_record (st : Renamer) (record : SeqRecord.t) : Renamer :=
  let main_id := SeqRecord.id record in
  match id_count st !! main_id with
  | Some n =>
      let new_id := main_id +:+ "_" +:+ pretty (S n) in
      {| id_count := <[main_id := S n]> (id_count st);
         unique_ids := unique_ids st;
         duplicate_ids := S (duplicate_ids st);
         written := written st
           ++ [SeqRecord.mk new_id new_id (SeqRecord.seq record)] |}
  | None =>
      {| id_count := <[main_id := 0]> (id_count st);
         unique_ids := S (unique_ids st);
         duplicate_ids := duplicate_ids st;
         written := written st ++ [record] |}
  end.

Definition rename_duplicates (records : list SeqRecord.t) : Renamer :=
  foldl rename_record
    {| id_count := ∅; unique_ids := 0; duplicate_ids := 0; written := [] |}
    records.

(** The text of a file into which the records were written one call of
    [SeqIO.write] each. *)
Definition write_each (records : list SeqRecord.t) : string :=
  foldl (λ text record, text +:+ SeqIO_write [record]) "" records.

(** *** [main] *)

(** What the summary prints. *)
Record Summary : Type := {
  step_counts : gmap string Z;
  renamed : nat;
  final : nat
}.

Definition main_in (denied : gset string)
    (as_completed : list (Future PartitionResult) → list (Future PartitionResult))
    (args : Args) : IO Summary :=
  '(rd, mg) ← alphabet_stage_in denied as_completed args;
  let step1_output :=
    foldl (λ text kept, text +:+ SeqIO_write kept) "" (temp_files mg) in
  let step_counts : gmap string Z :=
    <["removed_nonstandard_aa" := Z.of_nat (total_removed mg)]>
      (<["after_aa_filter" := Z.of_nat (total_kept mg)]>
         (<["input_sequences" := Z.of_nat (input_count rd)]> ∅)) in
  let current_file := step1_output in
  '(step_counts, current_file) ←
    (if negb (skip_length args) then
       step2_output ← lift (length_filter current_file (min_len args)
                              (max_len args) (threads args));
       n ← lift (count_records step2_output);
       let step_counts := <["after_length_filter" := n]> step_counts in
       mret (<["removed_by_length" :=
                 (step_counts !!! "after_aa_filter" - step_counts !!! "after_length_filter")%Z]>
               step_counts, step2_output)
     else
       mret (<["removed_by_length" := 0%Z]>
               (<["after_length_filter" := step_counts !!! "after_aa_filter"]>
                  step_counts), current_file));
  '(step_counts, current_file) ←
    (if negb (skip_cdhit args) then
       '(step3_output, cluster_file) ←
         lift (cd_hit_cluster current_file (identity args) (threads args));
       _ ← match cluster_file with
           | Some text => write_file (output args +:+ ".clstr") text
           | None => mret ()
           end;
       n ← lift (count_records step3_output);
       let step_counts := <["after_cdhit" := n]> step_counts in
       mret (<["removed_by_cdhit" :=
                 (step_counts !!! "after_length_filter" - step_counts !!! "after_cdhit")%Z]>
               step_counts, step3_output)
     else
       mret (<["removed_by_cdhit" := 0%Z]>
               (<["after_cdhit" := step_counts !!! "after_length_filter"]>
                  step_counts), current_file));
  records ← lift (SeqIO_parse current_file);
  let rn := rename_duplicates records in
  _ ← write_file (output args) (write_each (written rn));
  mret {| step_counts := step_counts;
          renamed := duplicate_ids rn;
          final := unique_ids rn + duplicate_ids rn |}.

(** [main] where every file that exists may be read. *)
Definition main
    (as_completed : list (Future PartitionResult) → list (Future PartitionResult))
    (args : Args) : IO Summary :=
  main_in ∅ as_completed args.

End Pipeline.

Arguments input {float} _.
Arguments output {float} _.
Arguments report {float} _.
Arguments threads {float} _.
Arguments chunk {float} _.
Arguments keep_uo {float} _.

Arguments alphabet_stage_in {float} SeqIO_parse denied as_completed args _.
Arguments alphabet_stage {float} SeqIO_parse as_completed args _.
Arguments main_in {float} SeqIO_parse SeqIO_write seqkit_seq cd_hit denied as_completed args _.
Arguments main {float} SeqIO_parse SeqIO_write seqkit_seq cd_hit as_completed args _.

(** ** Definitions used to state the properties *)

(** The test in the words of the specification: every character of the
    upper-cased sequence is a member of the alphabet. *)
Definition all_in_alphabet (allowed : gset ascii) (record : SeqRecord.t) : Prop :=
  Forall (λ c, c ∈ allowed) (list_ascii_of_string (upper (SeqRecord.seq record))).

#[global] Instance all_in_alphabet_dec allowed record :
  Decision (all_in_alphabet allowed record).
Proof. unfold all_in_alphabet. apply _. Defined.

(** A record whose sequence can be decoded: every byte is below 128. *)
Definition decodable (record : SeqRecord.t) : Prop :=
  Forall (λ c, (Ascii.N_of_ascii c < 128)%N)
    (list_ascii_of_string (SeqRecord.seq record)).

#[global] Instance decodable_dec record : Decision (decodable record).
Proof. unfold decodable. apply _. Defined.

(** The pair reported for a removed record. *)
Definition removed_entry (record : SeqRecord.t) : string * string :=
  (SeqRecord.id record, upper (SeqRecord.seq record)).

(** The split of a batch by the test. *)
Definition classify (allowed : gset ascii) (batch : list SeqRecord.t)
    : list SeqRecord.t * list (string * string) :=
  (filter (all_in_alphabet allowed) batch,
   removed_entry <$> filter (λ r, ¬ all_in_alphabet allowed r) batch).

(** The future of a submitted batch. *)
Definition batch_future (allowed : gset ascii) (batch : list SeqRecord.t)
    : Future PartitionResult :=
  submit process_chunk batch allowed.

(** How often [x] occurs in a list of identifiers. *)
Definition occurrences (x : string) (ids : list string) : nat :=
  length (filter (λ y, y = x) ids).

(** The record written for a record whose identifier has occurred [n]
    times before it. *)
Definition renamed_record (n : nat) (record : SeqRecord.t) : SeqRecord.t :=
  match n with
  | 0 => record
  | S _ =>
      let new_id := SeqRecord.id record +:+ "_" +:+ pretty n in
      SeqRecord.mk new_id new_id (SeqRecord.seq record)
  end.

(** The number of earlier records that carry the identifier of the record
    at position [i]. *)
Definition earlier (records : list SeqRecord.t) (i : nat) (record : SeqRecord.t) : nat :=
  occurrences (SeqRecord.id record) (take i (SeqRecord.id <$> records)).

(** The arguments with another [--chunk]. *)
Definition with_chunk {float} (c : Z) (args : Args float) : Args float :=
  {| input := input args; output := output args; report := report args;
     threads := threads args; chunk := c; keep_uo := keep_uo args;
     min_len := min_len _ args; max_len := max_len _ args;
     identity := identity _ args; skip_length := skip_length _ args;
     skip_cdhit := skip_cdhit _ args |}.

(** Sample input: the three records of the end-to-end scenario. *)
Definition seq1 := SeqRecord.mk "seq1" "seq1" "ACDEFG".
Definition seq2 := SeqRecord.mk "seq2" "seq2" "ACDXFG".
Definition seq3 := SeqRecord.mk "seq3" "seq3" "ACDEFG".

Definition sample_fasta : string :=
  ">seq1" +:+ newline +:+ "ACDEFG" +:+ newline +:+
  ">seq2" +:+ newline +:+ "ACDXFG" +:+ newline +:+
  ">seq3" +:+ newline +:+ "ACDEFG" +:+ newline.

(** A reader for FASTA text that has one sequence line per record. *)
Fixpoint split_lines (cur text : string) : list string :=
  match text with
  | EmptyString => if decide (cur = EmptyString) then [] else [String.rev cur]
  | String c text' =>
      if decide (c = Ascii.ascii_of_nat 10) then String.rev cur :: split_lines EmptyString text'
      else split_lines (String c cur) text'
  end.

Fixpoint read_records (lines : list string) : result (list SeqRecord.t) :=
  match lines with
  | [] => Returned []
  | String marker title :: sequence :: rest =>
      if decide (marker = Ascii.ascii_of_nat 62) then
        match read_records rest with
        | Returned records =>
            Returned (SeqRecord.mk (default EmptyString (head (String.words title)))
                        title sequence :: records)
        | Raised e => Raised e
        end
      else Raised (ValueError "not a FASTA file")
  | _ => Raised (ValueError "not a FASTA file")
  end.

Definition sample_parse (text : string) : result (list SeqRecord.t) :=
  read_records (split_lines EmptyString text).

Definition sample_write (records : list SeqRecord.t) : string :=
  foldr (λ r text, ">" +:+ SeqRecord.description r +:+ newline
                   +:+ SeqRecord.seq r +:+ newline +:+ text) "" records.

Definition sample_args : Args unit :=
  {| input := "input.faa"; output := "processed.faa"; report := "removed.txt";
     threads := 1; chunk := 2; keep_uo := false; min_len := 100; max_len := 1500;
     identity := (); skip_length := false; skip_cdhit := false |}.

Definition sample_fs : gmap string string :=
  {[ "input.faa" := sample_fasta; "removed.txt" := "left from an earlier run" ]}.

(** A record whose sequence holds the byte 233, and a source with the
    record seq2 before it. *)
Definition rec_bad : SeqRecord.t :=
  SeqRecord.mk "bad" "bad" (String "A" (String (Ascii.ascii_of_nat 233) EmptyString)).

Definition bad_fasta : string :=
  ">seq2" +:+ newline +:+ "ACDXFG" +:+ newline +:+
  ">bad" +:+ newline +:+ SeqRecord.seq rec_bad +:+ newline.

Definition bad_fs : gmap string string :=
  {[ "input.faa" := bad_fasta ]}.


(** External tools that succeed and hand their input on. *)
Definition sample_seqkit (threads min_len max_len : Z) (text : string) : Z * string :=
  (0%Z, text).
Definition sample_cd_hit (text : string) (identity : unit) (threads : Z)
    : Z * string * option string :=
  (0%Z, text, None).

(** External tools that fail with exit status 1. *)
Definition failing_seqkit (threads min_len max_len : Z) (text : string) : Z * string :=
  (1%Z, EmptyString).
Definition failing_cd_hit (text : string) (identity : unit) (threads : Z)
    : Z * string * option string :=
  (1%Z, EmptyString, None).

(** A clustering tool that keeps its input and writes a cluster file. *)
Definition clustering_cd_hit (text : string) (identity : unit) (threads : Z)
    : Z * string * option string :=
  (0%Z, text, Some ">Cluster 0").

(** The sample arguments with both external steps skipped. *)
Definition skip_args : Args unit :=
  {| input := "input.faa"; output := "processed.faa"; report := "removed.txt";
     threads := 1; chunk := 2; keep_uo := false; min_len := 100; max_len := 1500;
     identity := (); skip_length := true; skip_cdhit := true |}.

(** Five records with the identifiers A, B, A, A, C. *)
Definition sample_duplicates : list SeqRecord.t :=
  [SeqRecord.mk "A" "A first" "MKV"; SeqRecord.mk "B" "B only" "MKL";
   SeqRecord.mk "A" "A second" "MKI"; SeqRecord.mk "A" "A third" "MKF";
   SeqRecord.mk "C" "C only" "MKW"].

(** [length_step_gives ... step1 current]: the length step, skipped or
    run with success, hands the text [current] to the clustering step. *)
Definition length_step_gives {float} (SeqIO_parse : string → result (list SeqRecord.t))
    (seqkit_seq : Z → Z → Z → string → Z * string) (args : Args float)
    (step1 current : string) : Prop :=
  (skip_length _ args = true ∧ current = step1)
  ∨ (skip_length _ args = false
     ∧ seqkit_seq (threads args) (min_len _ args) (max_len _ args) step1 = (0%Z, current)
     ∧ ∃ records, SeqIO_parse current = Returned records).

(** The record with its sequence in upper case. *)
Definition upper_record (record : SeqRecord.t) : SeqRecord.t :=
  SeqRecord.mk (SeqRecord.id record) (SeqRecord.description record)
    (upper (SeqRecord.seq record)).

(** [frame P m]: running [m] leaves the files whose path satisfies [P]
    as they are. *)
Definition frame {A} (P : string → Prop) (m : IO A) : Prop :=
  ∀ (fs : gmap string string) p, P p → (m fs).2 !! p = fs !! p.

(** * Lemmas *)

(** ** Evaluating the program on the samples *)

Example process_chunk_ex :
  process_chunk [seq1; seq2] (standard_aa_of false)
  = Returned ([seq1], [("seq2", "ACDXFG")]).
Proof. vm_compute. reflexivity. Qed.

Example sample_parse_ex : sample_parse sample_fasta = Returned [seq1; seq2; seq3].
Proof. vm_compute. reflexivity. Qed.

Example main_ex :
  let run := main sample_parse sample_write sample_seqkit sample_cd_hit (λ l, l)
               sample_args sample_fs in
  exit_status run.1 = 0%Z
  ∧ run.2 !! "processed.faa"
    = Some (">seq1" +:+ newline +:+ "ACDEFG" +:+ newline
            +:+ ">seq3" +:+ newline +:+ "ACDEFG" +:+ newline)
  ∧ run.2 !! "removed.txt" = Some ("seq2" +:+ tab +:+ "ACDXFG" +:+ newline).
Proof. vm_compute. done. Qed.

Example lower_case_ex :
  process_chunk [SeqRecord.mk "s" "s lower" "acd"; SeqRecord.mk "t" "t lower" "acx"]
    (standard_aa_of false)
  = Returned ([SeqRecord.mk "s" "s lower" "acd"], [("t", "ACX")]).
Proof. vm_compute. reflexivity. Qed.

Example undecodable_ex :
  process_chunk [seq1; rec_bad; seq2] (standard_aa_of false)
  = Raised (UnicodeDecodeError (SeqRecord.seq rec_bad) 1).
Proof. vm_compute. reflexivity. Qed.

Example upper_ex : upper "acdXfg*" = "ACDXFG*".
Proof. reflexivity. Qed.

Example rename_ex :
  map SeqRecord.id (written (rename_duplicates
    (map (λ i, SeqRecord.mk i (i +:+ " desc") "MK") ["A"; "B"; "A"; "A"; "C"])))
  = ["A"; "B"; "A_1"; "A_2"; "C"].
Proof. vm_compute. reflexivity. Qed.

(** ** The alphabet filter: what it computes *)

Lemma issubset_all_in_alphabet allowed record :
  set_of_str (upper (SeqRecord.seq record)) ⊆ allowed ↔ all_in_alphabet allowed record.
Proof.
  unfold set_of_str, all_in_alphabet. rewrite Forall_forall. split.
  - intros Hsub c Hc. apply Hsub. by apply elem_of_list_to_set.
  - intros Hall c Hc. apply Hall. by apply elem_of_list_to_set in Hc.
Qed.

Lemma first_non_ascii_None data pos :
  Forall (λ c, (Ascii.N_of_ascii c < 128)%N) (list_ascii_of_string data) →
  first_non_ascii data pos = None.
Proof.
  revert pos. induction data as [|c data IH]; intros pos Hall; [done|].
  cbn in Hall. apply Forall_cons in Hall as [Hc Hall]. cbn [first_non_ascii].
  apply N.ltb_lt in Hc. rewrite Hc. by apply IH.
Qed.

Lemma first_non_ascii_Some data pos :
  ¬ Forall (λ c, (Ascii.N_of_ascii c < 128)%N) (list_ascii_of_string data) →
  ∃ start, first_non_ascii data pos = Some start.
Proof.
  revert pos. induction data as [|c data IH]; intros pos Hbad.
  - destruct Hbad. constructor.
  - cbn [first_non_ascii]. destruct (Ascii.N_of_ascii c <? 128)%N eqn:Hc.
    + apply IH. intros Hall. apply Hbad. cbn. constructor; [|done].
      by apply N.ltb_lt.
    + by eexists.
Qed.

Lemma str_of_seq_decodable record :
  decodable record → str_of_seq (SeqRecord.seq record) = Returned (SeqRecord.seq record).
Proof. intros H. unfold str_of_seq. by rewrite first_non_ascii_None. Qed.

Lemma str_of_seq_undecodable record :
  ¬ decodable record →
  ∃ start,
    str_of_seq (SeqRecord.seq record)
    = Raised (UnicodeDecodeError (SeqRecord.seq record) start).
Proof.
  intros H. unfold str_of_seq.
  destruct (first_non_ascii_Some (SeqRecord.seq record) 0 H) as [start ->].
  by exists start.
Qed.

Lemma process_record_kept allowed kept removed record :
  decodable record →
  all_in_alphabet allowed record →
  process_record allowed (kept, removed) record = Returned (kept ++ [record], removed).
Proof.
  intros Hd H. unfold process_record. rewrite str_of_seq_decodable by done.
  rewrite bool_decide_eq_true_2; [done|]. by apply issubset_all_in_alphabet.
Qed.

Lemma process_record_removed allowed kept removed record :
  decodable record →
  ¬ all_in_alphabet allowed record →
  process_record allowed (kept, removed) record
  = Returned (kept, removed ++ [removed_entry record]).
Proof.
  intros Hd H. unfold process_record. rewrite str_of_seq_decodable by done.
  rewrite bool_decide_eq_false_2; [done|]. by rewrite issubset_all_in_alphabet.
Qed.

Lemma process_record_raises allowed acc record :
  ¬ decodable record →
  ∃ start,
    process_record allowed acc record
    = Raised (UnicodeDecodeError (SeqRecord.seq record) start).
Proof.
  intros Hd. destruct (str_of_seq_undecodable record Hd) as [start Hs].
  exists start. unfold process_record. destruct acc as [kept removed]. by rewrite Hs.
Qed.

Lemma process_loop_spec allowed records kept removed :
  Forall decodable records →
  fold_result (process_record allowed) (kept, removed) records
  = Returned
      (kept ++ filter (all_in_alphabet allowed) records,
       removed ++ (removed_entry <$> filter (λ r, ¬ all_in_alphabet allowed r) records)).
Proof.
  revert kept removed. induction records as [|r records IH]; intros kept removed Hd.
  - simpl. by rewrite !app_nil_r.
  - apply Forall_cons in Hd as [Hr Hd]. rewrite !filter_cons. cbn [fold_result].
    destruct (decide (all_in_alphabet allowed r)) as [Hgood|Hbad].
    + rewrite process_record_kept, IH by done.
      rewrite decide_False by tauto. by rewrite <-app_assoc.
    + rewrite process_record_removed, IH by done.
      rewrite decide_True by done. rewrite fmap_cons. by rewrite <-app_assoc.
Qed.

Lemma process_chunk_spec records allowed :
  Forall decodable records →
  process_chunk records allowed
  = Returned
      (filter (all_in_alphabet allowed) records,
       removed_entry <$> filter (λ r, ¬ all_in_alphabet allowed r) records).
Proof. intros Hd. unfold process_chunk. by rewrite process_loop_spec. Qed.

(** The loop stops at the first record that cannot be decoded. *)
Lemma process_loop_raises allowed records acc :
  ¬ Forall decodable records →
  ∃ r start,
    r ∈ records ∧ ¬ decodable r
    ∧ fold_result (process_record allowed) acc records
      = Raised (UnicodeDecodeError (SeqRecord.seq r) start).
Proof.
  revert acc. induction records as [|r records IH]; intros acc Hbad.
  - destruct Hbad. constructor.
  - cbn [fold_result]. destruct (decide (decodable r)) as [Hr|Hr].
    + destruct (IH (match process_record allowed acc r with
                    | Returned acc' => acc' | Raised _ => acc end))
        as (r' & start & Hin & Hr' & Hrun).
      { intros Hall. apply Hbad. by constructor. }
      exists r', start. split_and!; [by right|done|].
      destruct acc as [kept removed].
      destruct (decide (all_in_alphabet allowed r)).
      * rewrite process_record_kept in * by done. exact Hrun.
      * rewrite process_record_removed in * by done. exact Hrun.
    + destruct (process_record_raises allowed acc r Hr) as [start ->].
      exists r, start. split_and!; [by left|done|done].
Qed.

Lemma process_chunk_raises records allowed :
  ¬ Forall decodable records →
  ∃ r start,
    r ∈ records ∧ ¬ decodable r
    ∧ process_chunk records allowed = Raised (UnicodeDecodeError (SeqRecord.seq r) start).
Proof. apply process_loop_raises. Qed.

(** Filtering a list by a predicate and by its negation splits the
    positions of the list. *)
Lemma filter_positions {A} (P : A → Prop) `{!∀ x, Decision (P x)} (l : list A) :
  ∃ ks rs : list nat,
    ks ++ rs ≡ₚ seq 0 (length l)
    ∧ Forall2 (λ i x, l !! i = Some x) ks (filter P l)
    ∧ Forall2 (λ i x, l !! i = Some x) rs (filter (λ x, ¬ P x) l).
Proof.
  induction l as [|x l IH] using rev_ind.
  - exists [], []. simpl. by repeat split.
  - destruct IH as (ks & rs & Hperm & Hks & Hrs).
    assert (Hlift : ∀ (js : list nat) (ys : list A),
      Forall2 (λ i y, l !! i = Some y) js ys →
      Forall2 (λ i y, (l ++ [x]) !! i = Some y) js ys).
    { intros js ys Hjs. eapply Forall2_impl; [exact Hjs|].
      intros i y Hi. by apply lookup_app_l_Some. }
    assert (Hlast : (l ++ [x]) !! length l = Some x).
    { by apply list_lookup_middle. }
    rewrite length_app, Nat.add_1_r, seq_S, !filter_app, !filter_cons, !filter_nil.
    simpl. destruct (decide (P x)) as [Hx|Hx].
    + rewrite decide_False by tauto. exists (ks ++ [length l]), rs.
      rewrite app_nil_r. split_and!.
      * rewrite <-Hperm. rewrite <-!app_assoc. f_equiv. apply Permutation_app_comm.
      * apply Forall2_app; [by apply Hlift|]. by constructor.
      * by apply Hlift.
    + rewrite decide_True by done. exists ks, (rs ++ [length l]).
      rewrite app_nil_r. split_and!.
      * by rewrite app_assoc, Hperm.
      * by apply Hlift.
      * apply Forall2_app; [by apply Hlift|]. by constructor.
Qed.

(** ** Strings: appending *)

Lemma str_app_cons (c : ascii) (s1 s2 : string) :
  String c s1 +:+ s2 = String c (s1 +:+ s2).
Proof. reflexivity. Qed.

Lemma str_app_nil_r (s : string) : s +:+ "" = s.
Proof. induction s as [|c s IH]; [done|]. by rewrite str_app_cons, IH. Qed.

Lemma str_app_assoc (s1 s2 s3 : string) : (s1 +:+ s2) +:+ s3 = s1 +:+ s2 +:+ s3.
Proof. induction s1 as [|c s1 IH]; [done|]. by rewrite !str_app_cons, IH. Qed.

Lemma str_app_neq (s suffix : string) : suffix ≠ "" → s +:+ suffix ≠ s.
Proof.
  intros Hne Heq. apply Hne. apply (inj (String.append s)).
  by rewrite str_app_nil_r.
Qed.

Lemma foldl_str_app {A} (f : A → string) (l : list A) (s : string) :
  foldl (λ text x, text +:+ f x) s l = s +:+ foldl (λ text x, text +:+ f x) "" l.
Proof.
  revert s. induction l as [|x l IH]; intros s; simpl.
  - by rewrite str_app_nil_r.
  - rewrite (IH (s +:+ f x)), (IH ("" +:+ f x)).
    rewrite !str_app_assoc. reflexivity.
Qed.

Lemma report_text_app removed1 removed2 :
  report_text (removed1 ++ removed2) = report_text removed1 +:+ report_text removed2.
Proof. unfold report_text. rewrite foldl_app. apply foldl_str_app. Qed.

(** ** Reading the input into chunks *)

Section Chunks.
Context (chunk_size : Z) (allowed : gset ascii).

Local Abbreviation run := (batch_future allowed).

Lemma read_loop_spec records st batches :
  futures st = run <$> batches →
  let st' := foldl (read_record chunk_size allowed) st records in
  ∃ batches',
    futures st' = run <$> batches'
    ∧ mjoin batches' ++ cur_chunk st' = mjoin batches ++ cur_chunk st ++ records
    ∧ input_count st' = input_count st + length records.
Proof.
  revert st batches. induction records as [|r records IH]; intros st batches Hst.
  - exists batches. simpl. rewrite app_nil_r. split_and!; [done|done|lia].
  - cbn [foldl]. set (st1 := read_record chunk_size allowed st r).
    assert (∃ bs1, futures st1 = run <$> bs1
              ∧ mjoin bs1 ++ cur_chunk st1 = mjoin batches ++ cur_chunk st ++ [r]
              ∧ input_count st1 = S (input_count st)) as (bs1 & Hf1 & Hj1 & Hn1).
    { subst st1. unfold read_record. case_bool_decide; simpl.
      - exists (batches ++ [cur_chunk st ++ [r]]). split_and!; [|  |done].
        + by rewrite Hst, fmap_app.
        + rewrite join_app. simpl. by rewrite !app_nil_r.
      - by exists batches. }
    destruct (IH st1 bs1 Hf1) as (bs & Hf & Hj & Hn).
    exists bs. split_and!; [exact Hf| |].
    + rewrite Hj, (app_assoc (mjoin bs1)), Hj1, <-!app_assoc. done.
    + rewrite Hn, Hn1. simpl. lia.
Qed.

(** The futures submitted are the filter applied to consecutive batches
    that together are the input. *)
Lemma read_chunks_spec records :
  ∃ batches,
    futures (read_chunks chunk_size allowed records) = run <$> batches
    ∧ mjoin batches = records
    ∧ input_count (read_chunks chunk_size allowed records) = length records.
Proof.
  unfold read_chunks.
  destruct (read_loop_spec records
              {| input_count := 0; cur_chunk := []; futures := [] |} [])
    as (bs & Hf & Hj & Hn); [done|].
  simpl in Hj, Hn.
  destruct (cur_chunk _) as [|r chunk'] eqn:Hcur.
  - exists bs. rewrite app_nil_r in Hj. done.
  - exists (bs ++ [r :: chunk']). simpl. split_and!.
    + by rewrite Hf, fmap_app.
    + rewrite join_app. simpl. by rewrite app_nil_r.
    + done.
Qed.

End Chunks.

(** ** Lists: permutations and joins *)

Lemma Permutation_fmap_inv {A B} (f : A → B) (l : list B) (l0 : list A) :
  l ≡ₚ f <$> l0 → ∃ l', l = f <$> l' ∧ l' ≡ₚ l0.
Proof.
  intros H. remember (f <$> l0) as k eqn:Hk. revert l0 Hk.
  induction H as [|y l k H IH|y z l|l k m H1 IH1 H2 IH2]; intros l0 Hk.
  - symmetry in Hk. apply fmap_nil_inv in Hk as ->. by exists [].
  - symmetry in Hk. apply fmap_cons_inv in Hk as (x & l1 & -> & -> & ->).
    destruct (IH l1 eq_refl) as (l' & -> & Hl'). exists (x :: l').
    split; [done|]. by constructor.
  - symmetry in Hk. apply fmap_cons_inv in Hk as (x1 & l1 & -> & Hk & ->).
    symmetry in Hk. apply fmap_cons_inv in Hk as (x2 & l2 & -> & -> & ->).
    exists (x2 :: x1 :: l2). split; [done|]. constructor.
  - destruct (IH2 l0 Hk) as (m' & -> & Hm').
    destruct (IH1 m' eq_refl) as (l' & -> & Hl'). exists l'.
    split; [done|]. by etrans.
Qed.

Lemma mjoin_cons {A} (l : list A) (ls : list (list A)) :
  mjoin (l :: ls) = l ++ mjoin ls.
Proof. reflexivity. Qed.

Lemma join_filter_nonempty {A} (ls : list (list A)) :
  mjoin (filter (λ l, l ≠ []) ls) = mjoin ls.
Proof.
  induction ls as [|l ls IH]; [done|].
  rewrite filter_cons. destruct l as [|x l].
  - rewrite decide_False by (intros H; by apply H). by rewrite mjoin_cons, IH.
  - rewrite decide_True by done. by rewrite !mjoin_cons, IH.
Qed.

(** ** Merging the results *)

Lemma for_each_cons {A S} (body : S → A → IO S) s x l (fs : FileSystem) :
  for_each body s (x :: l) fs
  = match body s x fs with
    | (Returned s', fs') => for_each body s' l fs'
    | (Raised e, fs') => (Raised e, fs')
    end.
Proof. reflexivity. Qed.

Lemma merge_loop_spec report_path (rs : list PartitionResult) st
    (fs : FileSystem) old :
  fs !! report_path = Some old →
  for_each (merge_future report_path) st (Returned <$> rs) fs
  = (Returned {| total_kept := total_kept st + length (mjoin rs.*1);
                 total_removed := total_removed st + length (mjoin rs.*2);
                 temp_files := temp_files st ++ filter (λ kept, kept ≠ []) rs.*1 |},
     <[report_path := old +:+ report_text (mjoin rs.*2)]> fs).
Proof.
  revert st fs old. induction rs as [|[kept removed] rs IH]; intros st fs old Hold.
  - simpl. unfold mret, IO_ret. rewrite !Nat.add_0_r, app_nil_r.
    unfold report_text. simpl. rewrite str_app_nil_r, insert_id by done.
    by destruct st.
  - rewrite fmap_cons, for_each_cons.
    assert (Htemp : ∀ files : list (list SeqRecord.t),
      match kept with [] => files | _ => files ++ [kept] end
        ++ filter (λ k, k ≠ []) rs.*1
      = files ++ filter (λ k, k ≠ []) (kept :: rs.*1)).
    { intros files. rewrite filter_cons. destruct kept as [|r kept].
      - by rewrite decide_False by (intros H; by apply H).
      - rewrite decide_True by done. by rewrite <-app_assoc. }
    destruct removed as [|entry removed].
    + assert (merge_future report_path st (Returned (kept, [])) fs
        = (Returned {| total_kept := total_kept st + length kept;
                       total_removed := total_removed st + 0;
                       temp_files := match kept with
                                     | [] => temp_files st
                                     | _ => temp_files st ++ [kept]
                                     end |},
           fs)) as ->.
      { reflexivity. }
      rewrite (IH _ fs old Hold). cbn [fmap list_fmap fst snd total_kept
        total_removed temp_files].
      rewrite !mjoin_cons, !length_app, Htemp. simpl.
      f_equal. f_equal. f_equal; lia.
    + set (fs1 := <[report_path := old +:+ report_text (entry :: removed)]> fs).
      assert (merge_future report_path st (Returned (kept, entry :: removed)) fs
        = (Returned {| total_kept := total_kept st + length kept;
                       total_removed := total_removed st + length (entry :: removed);
                       temp_files := match kept with
                                     | [] => temp_files st
                                     | _ => temp_files st ++ [kept]
                                     end |},
           fs1)) as ->.
      { unfold merge_future, lift, mbind, IO_bind, append_file. simpl.
        rewrite Hold. reflexivity. }
      rewrite (IH _ fs1 (old +:+ report_text (entry :: removed))).
      2:{ subst fs1. by rewrite lookup_insert_eq. }
      subst fs1. rewrite insert_insert_eq.
      cbn [fmap list_fmap fst snd total_kept total_removed temp_files].
      rewrite !mjoin_cons, !length_app, report_text_app, str_app_assoc, Htemp.
      f_equal. f_equal. f_equal; lia.
Qed.

(** ** The alphabet-filter stage as a whole *)

Lemma batch_results allowed (batches : list (list SeqRecord.t)) :
  Forall decodable (mjoin batches) →
  let results := classify allowed <$> batches in
  batch_future allowed <$> batches = Returned <$> results
  ∧ mjoin results.*1 = filter (all_in_alphabet allowed) (mjoin batches)
  ∧ mjoin results.*2
    = removed_entry <$> filter (λ r, ¬ all_in_alphabet allowed r) (mjoin batches).
Proof.
  induction batches as [|batch batches IH]; intros Hd; [done|].
  rewrite mjoin_cons in Hd. apply Forall_app in Hd as [Hbatch Hd].
  destruct (IH Hd) as (IH1 & IH2 & IH3).
  cbn zeta in *. rewrite !fmap_cons, !mjoin_cons, !filter_app, fmap_app.
  rewrite IH1, IH2, IH3. unfold batch_future, submit.
  rewrite process_chunk_spec by done. done.
Qed.

Lemma open_read_empty path (fs : gmap string string) text :
  fs !! path = Some text → open_read ∅ path fs = (Returned text, fs).
Proof. intros H. unfold open_read. rewrite H. reflexivity. Qed.



Section Stage.
Context {float : Type} (SeqIO_parse : string → result (list SeqRecord.t)).
Context (as_completed : list (Future PartitionResult) → list (Future PartitionResult)).
Hypothesis as_completed_perm : ∀ l, as_completed l ≡ₚ l.

Lemma alphabet_stage_spec (args : Args float) (fs : FileSystem) text records :
  (0 < threads args)%Z →
  <[report args := ""]> fs !! input args = Some text →
  SeqIO_parse text = Returned records →
  Forall decodable records →
  ∃ rd mg removed,
    alphabet_stage SeqIO_parse as_completed args fs
    = (Returned (rd, mg), <[report args := report_text removed]> fs)
    ∧ rd = read_chunks (chunk args) (standard_aa_of (keep_uo args)) records
    ∧ input_count rd = length records
    ∧ total_kept mg = length (mjoin (temp_files mg))
    ∧ total_removed mg = length removed
    ∧ mjoin (temp_files mg)
      ≡ₚ filter (all_in_alphabet (standard_aa_of (keep_uo args))) records
    ∧ removed
      ≡ₚ removed_entry
         <$> filter (λ r, ¬ all_in_alphabet (standard_aa_of (keep_uo args)) r) records.
Proof.
  intros Hthreads Hinput Hparse Hdec.
  set (allowed := standard_aa_of (keep_uo args)).
  destruct (read_chunks_spec (chunk args) allowed records)
    as (batches & Hfut & Hjoin & Hcount).
  destruct (batch_results allowed batches) as (Hres & Hkept & Hrem);
    [by rewrite Hjoin|].
  set (results := classify allowed <$> batches) in *.
  destruct (Permutation_fmap_inv Returned
              (as_completed (futures (read_chunks (chunk args) allowed records)))
              results) as (rs & Hrs & Hperm).
  { rewrite as_completed_perm, Hfut. by rewrite Hres. }
  exists (read_chunks (chunk args) allowed records).
  eexists. exists (mjoin rs.*2).
  split_and!.
  - unfold alphabet_stage, alphabet_stage_in. fold allowed.
    unfold mbind at 1, IO_bind at 1, write_file at 1.
    rewrite bool_decide_eq_false_2 by lia.
    unfold mbind at 1, IO_bind at 1. unfold mret at 1, IO_ret at 1.
    unfold mbind at 1, IO_bind at 1. rewrite (open_read_empty _ _ _ Hinput).
    unfold mbind at 1, IO_bind at 1, lift at 1. rewrite Hparse.
    unfold mbind at 1, IO_bind at 1, merge_futures at 1.
    rewrite Hrs.
    rewrite (merge_loop_spec _ _ _ _ "") by apply lookup_insert_eq.
    rewrite insert_insert_eq. reflexivity.
  - done.
  - done.
  - simpl. by rewrite join_filter_nonempty.
  - done.
  - simpl. rewrite join_filter_nonempty, Hperm, Hkept, Hjoin. done.
  - rewrite Hperm, Hrem, Hjoin. done.
Qed.

End Stage.

(** ** The renaming pass: what it computes *)

Lemma occurrences_snoc x ids y :
  occurrences x (ids ++ [y])
  = if decide (y = x) then S (occurrences x ids) else occurrences x ids.
Proof.
  unfold occurrences. rewrite filter_app, length_app, filter_cons, filter_nil.
  case_decide; simpl; lia.
Qed.

Lemma earlier_snoc records record i r :
  records !! i = Some r →
  earlier (records ++ [record]) i r = earlier records i r.
Proof.
  intros Hi. unfold earlier. rewrite fmap_app, take_app_le; [done|].
  rewrite length_fmap. apply lookup_lt_Some in Hi. lia.
Qed.

Lemma earlier_last records record :
  earlier (records ++ [record]) (length records) record
  = occurrences (SeqRecord.id record) (SeqRecord.id <$> records).
Proof.
  unfold earlier. rewrite fmap_app. by rewrite take_app_length' by by rewrite length_fmap.
Qed.

Lemma rename_duplicates_spec records :
  written (rename_duplicates records)
  = imap (λ i r, renamed_record (earlier records i r) r) records
  ∧ ∀ x, id_count (rename_duplicates records) !! x
         = match occurrences x (SeqRecord.id <$> records) with
           | 0 => None
           | S n => Some n
           end.
Proof.
  induction records as [|record records [IHw IHc]] using rev_ind.
  - split; [done|]. intros x. apply lookup_empty.
  - unfold rename_duplicates in *. rewrite foldl_snoc.
    set (st := foldl rename_record _ records) in *.
    assert (Hwritten : ∀ rec',
      written st ++ [rec']
      = imap (λ i r, renamed_record (earlier (records ++ [record]) i r) r) records
          ++ [rec']).
    { intros rec'. rewrite IHw. f_equal. apply imap_ext.
      intros i r Hi. by rewrite earlier_snoc. }
    assert (Hcount : ∀ n x,
      occurrences (SeqRecord.id record) (SeqRecord.id <$> records) = n →
      <[SeqRecord.id record := n]> (id_count st) !! x
      = match occurrences x (SeqRecord.id <$> (records ++ [record])) with
        | 0 => None
        | S m => Some m
        end).
    { intros n x Hn. rewrite fmap_app. cbn [fmap list_fmap].
      rewrite occurrences_snoc. case_decide as Hx.
      - subst x. by rewrite lookup_insert_eq, Hn.
      - rewrite lookup_insert_ne by done. apply IHc. }
    rewrite imap_app. cbn [imap]. rewrite Nat.add_0_r, earlier_last.
    unfold rename_record. rewrite (IHc (SeqRecord.id record)).
    destruct (occurrences (SeqRecord.id record) (SeqRecord.id <$> records))
      as [|n] eqn:Hocc; cbn [written id_count renamed_record].
    + split; [apply Hwritten|]. intros x. by apply Hcount.
    + split; [apply Hwritten|]. intros x. by apply Hcount.
Qed.

Lemma report_text_lines removed :
  report_text removed
  = foldr (λ entry rest, entry.1 +:+ tab +:+ entry.2 +:+ newline +:+ rest) "" removed.
Proof.
  induction removed as [|entry removed IH]; [done|].
  unfold report_text in *. cbn [foldl foldr]. rewrite foldl_str_app, IH.
  unfold report_line. rewrite !str_app_assoc. reflexivity.
Qed.


Lemma merge_future_returned report_path st result (fs : FileSystem) :
  ∃ st' fs', merge_future report_path st (Returned result) fs = (Returned st', fs').
Proof.
  destruct result as [kept [|entry removed]];
    unfold merge_future, lift, mbind, IO_bind, append_file, mret, IO_ret;
    cbn beta iota; do 2 eexists; reflexivity.
Qed.

Lemma merge_loop_returned report_path (rs : list PartitionResult) st (fs : FileSystem) :
  ∃ st' fs',
    for_each (merge_future report_path) st (Returned <$> rs) fs = (Returned st', fs').
Proof.
  revert st fs. induction rs as [|result rs IH]; intros st fs.
  - do 2 eexists; reflexivity.
  - rewrite fmap_cons, for_each_cons.
    destruct (merge_future_returned report_path st result fs) as (st1 & fs1 & ->).
    apply IH.
Qed.

(** ** What the later steps of [main] leave alone *)

Lemma frame_ret {A} P (a : A) : frame P (mret a).
Proof. by intros fs p _. Qed.

Lemma frame_lift {A} P (r : result A) : frame P (lift r).
Proof. by intros fs p _. Qed.

Lemma frame_write P path text :
  (∀ p, P p → p ≠ path) → frame P (write_file path text).
Proof.
  intros HP fs p Hp. simpl. rewrite lookup_insert_ne; [done|].
  intros ->. by eapply HP.
Qed.

Lemma frame_bind {A B} P (m : IO A) (k : A → IO B) :
  frame P m → (∀ a, frame P (k a)) → frame P (m ≫= k).
Proof.
  intros Hm Hk fs p Hp. unfold mbind, IO_bind.
  specialize (Hm fs p Hp). destruct (m fs) as [[a|e] fs']; simpl in *.
  - by rewrite (Hk a fs' p Hp).
  - done.
Qed.

(** After the alphabet-filter stage, [main] writes only the output file
    and its cluster file, whether the later steps succeed or not. *)
Lemma main_after_stage {float} SeqIO_parse SeqIO_write seqkit_seq
    (cd_hit : string → float → Z → Z * string * option string)
    as_completed (args : Args float) (fs : gmap string string) rd mg fs1 :
  alphabet_stage SeqIO_parse as_completed args fs = (Returned (rd, mg), fs1) →
  ∀ path, path ≠ output args → path ≠ output args +:+ ".clstr" →
    (main SeqIO_parse SeqIO_write seqkit_seq cd_hit as_completed args fs).2 !! path
    = fs1 !! path.
Proof.
  intros Hstage path Ho Hc. unfold alphabet_stage in Hstage. unfold main, main_in. unfold mbind at 1, IO_bind at 1.
  rewrite Hstage.
  match goal with
  | |- (?m fs1).2 !! _ = _ =>
      apply (λ H : frame (λ p, p = path) m, H fs1 path eq_refl)
  end.
  repeat first
    [ apply frame_ret
    | apply frame_lift
    | apply frame_write; intros p ->; assumption
    | apply frame_bind; [|intros ?]
    | match goal with
      | |- frame _ (if ?b then _ else _) => destruct b
      | |- frame _ (match ?x with _ => _ end) => destruct x
      end ].
Qed.


(** ** Workers that fail *)






Section Abort.
Context {float : Type} (SeqIO_parse : string → result (list SeqRecord.t)).
Context (as_completed : list (Future PartitionResult) → list (Future PartitionResult)).



End Abort.

(** * The properties of the specification *)

(** ** The alphabet filter *)

Lemma process_chunk_returns_inv records allowed res :
  process_chunk records allowed = Returned res → Forall decodable records.
Proof.
  intros Hrun. destruct (decide (Forall decodable records)) as [|Hbad]; [done|].
  destruct (process_chunk_raises records allowed Hbad) as (r & start & _ & _ & Hraise).
  congruence.
Qed.

(** C1, as the program has it.  For every batch whose sequences can all be
    decoded and every alphabet, the filter returns, the numbers of kept
    and removed records add up to the number of input records, and the
    positions of the batch split into two lists [ks] and [rs] that
    together hold every position exactly once: the kept records are the
    records at the positions [ks], the removed entries are those of the
    records at the positions [rs].  On a batch that holds a sequence that
    cannot be decoded the filter raises [UnicodeDecodeError]. *)
Theorem process_chunk_partition (records : list SeqRecord.t) (allowed : gset ascii) :
  (Forall decodable records →
   ∃ kept removed,
     process_chunk records allowed = Returned (kept, removed)
     ∧ length kept + length removed = length records
     ∧ ∃ ks rs : list nat,
         ks ++ rs ≡ₚ seq 0 (length records)
         ∧ Forall2 (λ i r, records !! i = Some r) ks kept
         ∧ Forall2 (λ i entry, ∃ r, records !! i = Some r
                                   ∧ entry = (SeqRecord.id r, upper (SeqRecord.seq r)))
             rs removed)
  ∧ (¬ Forall decodable records →
     ∃ object start,
       process_chunk records allowed = Raised (UnicodeDecodeError object start)).
Proof.
  split.
  - intros Hdec. do 2 eexists. split; [by apply process_chunk_spec|].
    destruct (filter_positions (all_in_alphabet allowed) records)
      as (ks & rs & Hperm & Hks & Hrs).
    split.
    + rewrite length_fmap.
      rewrite <-(Forall2_length _ _ _ Hks), <-(Forall2_length _ _ _ Hrs).
      rewrite <-length_app, Hperm. apply length_seq.
    + exists ks, rs. split_and!; [done|done|].
      apply Forall2_fmap_r. eapply Forall2_impl; [exact Hrs|].
      intros i r Hi. by exists r.
  - intros Hbad.
    destruct (process_chunk_raises records allowed Hbad) as (r & start & _ & _ & Hraise).
    by do 2 eexists.
Qed.

Lemma process_chunk_partition_witness :
  ∃ kept removed,
    process_chunk [seq1; seq2; seq3] (standard_aa_of false) = Returned (kept, removed)
    ∧ length kept + length removed = length [seq1; seq2; seq3]
    ∧ ∃ ks rs : list nat,
        ks ++ rs ≡ₚ seq 0 (length [seq1; seq2; seq3])
        ∧ Forall2 (λ i r, [seq1; seq2; seq3] !! i = Some r) ks kept
        ∧ Forall2 (λ i entry, ∃ r, [seq1; seq2; seq3] !! i = Some r
                                  ∧ entry = (SeqRecord.id r, upper (SeqRecord.seq r)))
            rs removed.
Proof.
  apply (process_chunk_partition [seq1; seq2; seq3] (standard_aa_of false)).
  apply (bool_decide_unpack _). vm_compute. exact I.
Defined.

(** C1, as stated, fails: on a batch with a sequence that cannot be
    decoded the filter returns no kept and no removed list at all. *)
Lemma undecodable_batch_not_partitioned :
  process_chunk [seq1; rec_bad] (standard_aa_of false)
  = Raised (UnicodeDecodeError (SeqRecord.seq rec_bad) 1)
  ∧ ¬ ∃ kept removed,
        process_chunk [seq1; rec_bad] (standard_aa_of false) = Returned (kept, removed)
        ∧ length kept + length removed = length [seq1; rec_bad].
Proof.
  assert (Hrun : process_chunk [seq1; rec_bad] (standard_aa_of false)
                 = Raised (UnicodeDecodeError (SeqRecord.seq rec_bad) 1)).
  { vm_compute. reflexivity. }
  split; [exact Hrun|]. intros (kept & removed & Hret & _).
  rewrite Hrun in Hret. discriminate.
Qed.

(** C2, as the program has it.  Whatever the chunk size, the futures
    submitted are the filter applied to consecutive batches that make up
    the input.  On every batch whose sequences can all be decoded the
    filter returns, a record is kept exactly when every character of its
    upper-cased sequence is in the alphabet, and reported exactly when not;
    the kept list holds the records themselves, the removed list the
    identifier with the upper-cased sequence.  On a batch that holds a
    sequence that cannot be decoded the filter raises and classifies
    nothing. *)
Theorem alphabet_correctness (allowed : gset ascii) (chunk_size : Z)
    (records : list SeqRecord.t) :
  ∃ batches,
    futures (read_chunks chunk_size allowed records)
    = (λ batch, process_chunk batch allowed) <$> batches
    ∧ mjoin batches = records
    ∧ ∀ batch,
        (Forall decodable batch →
         ∃ kept removed,
           process_chunk batch allowed = Returned (kept, removed)
           ∧ kept = filter (all_in_alphabet allowed) batch
           ∧ removed = (λ r, (SeqRecord.id r, upper (SeqRecord.seq r)))
                         <$> filter (λ r, ¬ all_in_alphabet allowed r) batch
           ∧ ∀ r, r ∈ batch →
               (r ∈ kept ↔ all_in_alphabet allowed r)
               ∧ ((SeqRecord.id r, upper (SeqRecord.seq r)) ∈ removed
                  ↔ ¬ all_in_alphabet allowed r))
        ∧ (¬ Forall decodable batch →
           ∃ object start,
             process_chunk batch allowed = Raised (UnicodeDecodeError object start)).
Proof.
  destruct (read_chunks_spec chunk_size allowed records) as (batches & Hf & Hj & _).
  exists batches. split_and!; [exact Hf|exact Hj|].
  intros batch. split.
  - intros Hdec. do 2 eexists. split; [by apply process_chunk_spec|].
    split; [done|]. split; [done|].
    intros r Hr. split.
    + rewrite list_elem_of_filter. tauto.
    + rewrite list_elem_of_fmap. split.
      * intros (r' & Heq & Hr'). apply list_elem_of_filter in Hr' as [Hbad _].
        injection Heq as _ Hseq.
        unfold all_in_alphabet in *. by rewrite Hseq.
      * intros Hbad. exists r. split; [done|]. by apply list_elem_of_filter.
  - intros Hbad.
    destruct (process_chunk_raises batch allowed Hbad) as (r & start & _ & _ & Hraise).
    by do 2 eexists.
Qed.

(** C2, as stated, fails: whether a record is kept depends on the batch it
    lands in.  The record seq1 is kept when it is alone in its batch, and
    not when it shares the batch with a sequence that cannot be decoded. *)
Lemma outcome_depends_on_batch :
  (∃ kept removed,
     process_chunk [seq1] (standard_aa_of false) = Returned (kept, removed)
     ∧ seq1 ∈ kept)
  ∧ ¬ (∃ kept removed,
         process_chunk [seq1; rec_bad] (standard_aa_of false) = Returned (kept, removed)
         ∧ seq1 ∈ kept).
Proof.
  split.
  - exists [seq1], []. split; [vm_compute; reflexivity|]. by left.
  - intros (kept & removed & Hret & _).
    assert (Hrun : process_chunk [seq1; rec_bad] (standard_aa_of false)
                   = Raised (UnicodeDecodeError (SeqRecord.seq rec_bad) 1)).
    { vm_compute. reflexivity. }
    rewrite Hrun in Hret. discriminate.
Qed.

(** C9.  A record whose sequence is empty is classified as kept for every
    alphabet, the empty one included: the loop body appends it to the kept
    records and never raises on it; alone in a batch it is the only record
    kept and nothing is removed; and whenever the filter returns for a
    batch that holds it, which it does for every batch that can be
    decoded, the record is among the kept records and no entry is reported
    for it. *)
Theorem empty_sequence_kept (allowed : gset ascii) (r : SeqRecord.t) :
  SeqRecord.seq r = "" →
  (∀ kept removed,
     process_record allowed (kept, removed) r = Returned (kept ++ [r], removed))
  ∧ process_chunk [r] allowed = Returned ([r], [])
  ∧ (∀ batch kept removed, r ∈ batch →
       process_chunk batch allowed = Returned (kept, removed) →
       r ∈ kept ∧ (SeqRecord.id r, "") ∉ removed)
  ∧ (∀ batch, Forall decodable batch →
       ∃ kept removed, process_chunk batch allowed = Returned (kept, removed)).
Proof.
  intros Hseq.
  assert (Hempty : ∀ r', upper (SeqRecord.seq r') = "" → all_in_alphabet allowed r').
  { intros r' Hr'. unfold all_in_alphabet. rewrite Hr'. constructor. }
  assert (Hr : all_in_alphabet allowed r). { apply Hempty. by rewrite Hseq. }
  assert (Hd : decodable r). { unfold decodable. rewrite Hseq. constructor. }
  split_and!.
  - intros kept removed. by apply process_record_kept.
  - rewrite process_chunk_spec by (by constructor).
    rewrite !filter_cons, !filter_nil.
    rewrite decide_True by done. rewrite decide_False by tauto. done.
  - intros batch kept removed Hin Hrun.
    pose proof (process_chunk_returns_inv _ _ _ Hrun) as Hdec.
    rewrite process_chunk_spec in Hrun by done. injection Hrun as <- <-. split.
    + by apply list_elem_of_filter.
    + intros (r' & Heq & Hr')%list_elem_of_fmap.
      apply list_elem_of_filter in Hr' as [Hbad _]. apply Hbad, Hempty.
      unfold removed_entry in Heq. by injection Heq as _ <-.
  - intros batch Hdec. do 2 eexists. by apply process_chunk_spec.
Qed.

Lemma empty_sequence_kept_witness :
  (∀ kept removed,
     process_record ∅ (kept, removed) (SeqRecord.mk "e1" "e1 empty" "")
     = Returned (kept ++ [SeqRecord.mk "e1" "e1 empty" ""], removed))
  ∧ process_chunk [SeqRecord.mk "e1" "e1 empty" ""] ∅
    = Returned ([SeqRecord.mk "e1" "e1 empty" ""], [])
  ∧ (∀ batch kept removed, SeqRecord.mk "e1" "e1 empty" "" ∈ batch →
       process_chunk batch ∅ = Returned (kept, removed) →
       SeqRecord.mk "e1" "e1 empty" "" ∈ kept ∧ ("e1", "") ∉ removed)
  ∧ (∀ batch, Forall decodable batch →
       ∃ kept removed, process_chunk batch ∅ = Returned (kept, removed)).
Proof. apply (empty_sequence_kept ∅ (SeqRecord.mk "e1" "e1 empty" "")). reflexivity. Defined.

(** ** The chunked dispatch *)




(** C4.  End-to-end scenario: on the three records seq1 (ACDEFG), seq2
    (ACDXFG) and seq3 (ACDEFG), whatever their descriptions, with the
    default alphabet, chunk size 2 and one worker, the alphabet-filter stage
    submits the batches [seq1, seq2] and [seq3], keeps exactly seq1 and seq3
    (in the order of completion), reports exactly the line of seq2 with
    ACDXFG, and ends with [total_kept = 2] and [total_removed = 1]. *)
Theorem end_to_end_scenario {float} (SeqIO_parse : string → result (list SeqRecord.t))
    (as_completed : list (Future PartitionResult) → list (Future PartitionResult))
    (args : Args float) (fs : gmap string string) text (d1 d2 d3 : string) :
  let r1 := SeqRecord.mk "seq1" d1 "ACDEFG" in
  let r2 := SeqRecord.mk "seq2" d2 "ACDXFG" in
  let r3 := SeqRecord.mk "seq3" d3 "ACDEFG" in
  (∀ l, as_completed l ≡ₚ l) →
  keep_uo args = false → chunk args = 2%Z → threads args = 1%Z →
  <[report args := ""]> fs !! input args = Some text →
  SeqIO_parse text = Returned [r1; r2; r3] →
  ∃ rd mg fs',
    alphabet_stage SeqIO_parse as_completed args fs = (Returned (rd, mg), fs')
    ∧ futures rd = [Returned ([r1], [("seq2", "ACDXFG")]); Returned ([r3], [])]
    ∧ mjoin (temp_files mg) ≡ₚ [r1; r3]
    ∧ fs' !! report args = Some ("seq2" +:+ tab +:+ "ACDXFG" +:+ newline)
    ∧ total_kept mg = 2
    ∧ total_removed mg = 1.
Proof.
  intros r1 r2 r3 Hperm Huo Hchunk Hthreads Hinput Hparse.
  destruct (alphabet_stage_spec SeqIO_parse as_completed Hperm args fs text
              [r1; r2; r3]) as (rd & mg & rem & Hrun & Hrd & _ & Hk & Hr & Hkept & Hrem);
    [lia|done|done|apply (bool_decide_unpack _); vm_compute; exact I|].
  rewrite Huo in Hrd, Hkept, Hrem. rewrite Hchunk in Hrd.
  assert (Hgood : filter (all_in_alphabet (standard_aa_of false)) [r1; r2; r3]
                  = [r1; r3]) by (vm_compute; reflexivity).
  assert (Hbad : removed_entry
                   <$> filter (λ r, ¬ all_in_alphabet (standard_aa_of false) r) [r1; r2; r3]
                 = [("seq2", "ACDXFG")]) by (vm_compute; reflexivity).
  rewrite Hgood in Hkept. rewrite Hbad in Hrem.
  apply Permutation_singleton_r in Hrem. subst rem.
  exists rd, mg, (<[report args := report_text [("seq2", "ACDXFG")]]> fs).
  split_and!.
  - exact Hrun.
  - rewrite Hrd. vm_compute. reflexivity.
  - exact Hkept.
  - by rewrite lookup_insert_eq.
  - by rewrite Hk, Hkept.
  - by rewrite Hr.
Qed.

Lemma end_to_end_scenario_witness :
  ∃ rd mg fs',
    alphabet_stage sample_parse reverse sample_args sample_fs = (Returned (rd, mg), fs')
    ∧ futures rd = [Returned ([seq1], [("seq2", "ACDXFG")]); Returned ([seq3], [])]
    ∧ mjoin (temp_files mg) ≡ₚ [seq1; seq3]
    ∧ fs' !! report sample_args = Some ("seq2" +:+ tab +:+ "ACDXFG" +:+ newline)
    ∧ total_kept mg = 2
    ∧ total_removed mg = 1.
Proof.
  apply (end_to_end_scenario sample_parse reverse sample_args sample_fs sample_fasta
           "seq1" "seq2" "seq3").
  - intros l. apply reverse_Permutation.
  - reflexivity.
  - reflexivity.
  - reflexivity.
  - reflexivity.
  - reflexivity.
Defined.

(** ** The report *)

(** C5, as the program has it.  Report completeness: when every sequence
    of the input can be decoded, the stage merges every batch and the
    report file then holds exactly one line [identifier, tab, upper-cased
    sequence, newline] for each entry of a list [removed] that is, up to
    order, the list of the entries of the input records that fail the
    test, one per such record.  Nothing the file held before the run is
    left in it, and no other file has changed.  The later steps of [main]
    leave the report as it is, provided the output file and its cluster
    file are not the report file itself. *)
Theorem report_completeness {float} (SeqIO_parse : string → result (list SeqRecord.t))
    (SeqIO_write : list SeqRecord.t → string)
    (seqkit_seq : Z → Z → Z → string → Z * string)
    (cd_hit : string → float → Z → Z * string * option string)
    (as_completed : list (Future PartitionResult) → list (Future PartitionResult))
    (args : Args float) (fs : gmap string string) text records :
  (∀ l, as_completed l ≡ₚ l) →
  (0 < threads args)%Z →
  <[report args := ""]> fs !! input args = Some text →
  SeqIO_parse text = Returned records →
  Forall decodable records →
  ∃ rd mg fs' removed,
    alphabet_stage SeqIO_parse as_completed args fs = (Returned (rd, mg), fs')
    ∧ removed
      ≡ₚ (λ r, (SeqRecord.id r, upper (SeqRecord.seq r)))
         <$> filter (λ r, ¬ all_in_alphabet (standard_aa_of (keep_uo args)) r) records
    ∧ fs' !! report args
      = Some (foldr (λ entry rest,
                entry.1 +:+ tab +:+ entry.2 +:+ newline +:+ rest) "" removed)
    ∧ (∀ path, path ≠ report args → fs' !! path = fs !! path)
    ∧ (report args ≠ output args → report args ≠ output args +:+ ".clstr" →
       (main SeqIO_parse SeqIO_write seqkit_seq cd_hit as_completed args fs).2
         !! report args
       = fs' !! report args).
Proof.
  intros Hperm Hthreads Hinput Hparse Hdec.
  destruct (alphabet_stage_spec SeqIO_parse as_completed Hperm args fs text records)
    as (rd & mg & rem & Hrun & _ & _ & _ & _ & _ & Hrem); [done..|].
  exists rd, mg, (<[report args := report_text rem]> fs), rem. split_and!.
  - exact Hrun.
  - exact Hrem.
  - by rewrite lookup_insert_eq, report_text_lines.
  - intros path Hne. by rewrite lookup_insert_ne.
  - intros Ho Hc. by eapply main_after_stage.
Qed.

Lemma report_completeness_witness :
  ∃ rd mg fs' removed,
    alphabet_stage sample_parse (λ l, l) sample_args sample_fs = (Returned (rd, mg), fs')
    ∧ removed
      ≡ₚ (λ r, (SeqRecord.id r, upper (SeqRecord.seq r)))
         <$> filter (λ r, ¬ all_in_alphabet (standard_aa_of (keep_uo sample_args)) r)
               [seq1; seq2; seq3]
    ∧ fs' !! report sample_args
      = Some (foldr (λ entry rest,
                entry.1 +:+ tab +:+ entry.2 +:+ newline +:+ rest) "" removed)
    ∧ (∀ path, path ≠ report sample_args → fs' !! path = sample_fs !! path)
    ∧ (report sample_args ≠ output sample_args →
       report sample_args ≠ output sample_args +:+ ".clstr" →
       (main sample_parse sample_write sample_seqkit sample_cd_hit (λ l, l)
          sample_args sample_fs).2 !! report sample_args
       = fs' !! report sample_args).
Proof.
  apply (report_completeness sample_parse sample_write sample_seqkit sample_cd_hit
           (λ l, l) sample_args sample_fs sample_fasta [seq1; seq2; seq3]).
  - reflexivity.
  - reflexivity.
  - reflexivity.
  - reflexivity.
  - apply (bool_decide_unpack _). vm_compute. exact I.
Defined.

(** C5, as stated, fails: the input holds seq2, which fails the test, and
    a record whose sequence cannot be decoded; with chunk size 1 and the
    failed worker collected first, the whole program ends with the
    decoding error and an empty report, without a line for seq2. *)
Lemma failed_record_not_reported :
  sample_parse bad_fasta = Returned [seq2; rec_bad]
  ∧ ¬ all_in_alphabet (standard_aa_of (keep_uo sample_args)) seq2
  ∧ alphabet_stage sample_parse reverse (with_chunk 1 sample_args) bad_fs
    = (Raised (UnicodeDecodeError (SeqRecord.seq rec_bad) 1),
       <["removed.txt" := ""]> bad_fs)
  ∧ (main sample_parse sample_write sample_seqkit sample_cd_hit reverse
       (with_chunk 1 sample_args) bad_fs).2 !! "removed.txt" = Some "".
Proof.
  split_and!.
  - vm_compute. reflexivity.
  - apply (bool_decide_unpack _). vm_compute. exact I.
  - vm_compute. reflexivity.
  - vm_compute. reflexivity.
Qed.

(** ** The renaming pass *)

(** C6.  Duplicate renaming: the identifier written for the record at
    position [i] is the original one when no earlier record carries it, and
    the original followed by an underscore and [n] when [n] earlier records
    carry it, so that the n-th duplicate gets the suffix [n]; and the
    identifiers A, B, A, A, C become A, B, A_1, A_2, C. *)
Theorem rename_ids (records : list SeqRecord.t) :
  SeqRecord.id <$> written (rename_duplicates records)
  = imap (λ i x,
      match occurrences x (take i (SeqRecord.id <$> records)) with
      | 0 => x
      | S _ as n => x +:+ "_" +:+ pretty n
      end) (SeqRecord.id <$> records)
  ∧ (SeqRecord.id <$> records = ["A"; "B"; "A"; "A"; "C"] →
     SeqRecord.id <$> written (rename_duplicates records)
     = ["A"; "B"; "A_1"; "A_2"; "C"]).
Proof.
  assert (Hids : SeqRecord.id <$> written (rename_duplicates records)
    = imap (λ i x,
        match occurrences x (take i (SeqRecord.id <$> records)) with
        | 0 => x
        | S _ as n => x +:+ "_" +:+ pretty n
        end) (SeqRecord.id <$> records)).
  { destruct (rename_duplicates_spec records) as [-> _].
    rewrite fmap_imap, imap_fmap. apply imap_ext. intros i r _.
    unfold compose, earlier, renamed_record.
    by destruct (occurrences _ _). }
  split; [exact Hids|].
  intros Hsample. rewrite Hids, Hsample. vm_compute. reflexivity.
Qed.

Lemma rename_ids_witness :
  SeqRecord.id <$> written (rename_duplicates sample_duplicates)
  = ["A"; "B"; "A_1"; "A_2"; "C"].
Proof. apply (rename_ids sample_duplicates). reflexivity. Defined.

(** C10.  Frame of the renaming pass: one record is written per input
    record; a record whose identifier has not occurred before is written
    unchanged in all its fields; a record whose identifier has occurred
    [n > 0] times before is written with the new identifier, which differs
    from the old one, with the description set to that new identifier, and
    with its sequence unchanged. *)
Theorem rename_frame (records : list SeqRecord.t) (i : nat) (r : SeqRecord.t) :
  records !! i = Some r →
  let n := occurrences (SeqRecord.id r) (take i (SeqRecord.id <$> records)) in
  let new_id := SeqRecord.id r +:+ "_" +:+ pretty n in
  length (written (rename_duplicates records)) = length records
  ∧ (n = 0 → written (rename_duplicates records) !! i = Some r)
  ∧ (0 < n →
     written (rename_duplicates records) !! i
     = Some (SeqRecord.mk new_id new_id (SeqRecord.seq r))
     ∧ new_id ≠ SeqRecord.id r).
Proof.
  intros Hi n new_id. destruct (rename_duplicates_spec records) as [Hw _].
  assert (Hlook : written (rename_duplicates records) !! i = Some (renamed_record n r)).
  { rewrite Hw, list_lookup_imap, Hi. reflexivity. }
  split_and!.
  - by rewrite Hw, length_imap.
  - intros Hn. rewrite Hlook, Hn. reflexivity.
  - intros Hn. split.
    + rewrite Hlook. destruct n; [lia|reflexivity].
    + apply str_app_neq. discriminate.
Qed.

Lemma rename_frame_witness :
  length (written (rename_duplicates sample_duplicates)) = 5
  ∧ written (rename_duplicates sample_duplicates) !! 0
    = Some (SeqRecord.mk "A" "A first" "MKV")
  ∧ written (rename_duplicates sample_duplicates) !! 3
    = Some (SeqRecord.mk "A_2" "A_2" "MKF")
  ∧ "A_2" ≠ "A".
Proof.
  pose proof (rename_frame sample_duplicates 0 (SeqRecord.mk "A" "A first" "MKV")
                eq_refl) as (Hlen & Hfirst & _).
  pose proof (rename_frame sample_duplicates 3 (SeqRecord.mk "A" "A third" "MKF")
                eq_refl) as (_ & _ & Hdup).
  destruct Hdup as [Hdup Hne]; [vm_compute; lia|].
  split_and!.
  - exact Hlen.
  - apply Hfirst. reflexivity.
  - exact Hdup.
  - exact Hne.
Defined.

(** ** Failures *)







(** * Further properties of the program *)

(** ** Reading the input into chunks (lines 62 to 71 of [main]) *)

Lemma read_loop_sizes (c : Z) allowed records st batches :
  (1 ≤ c)%Z →
  futures st = batch_future allowed <$> batches →
  Forall (λ b, Z.of_nat (length b) = c) batches →
  (Z.of_nat (length (cur_chunk st)) < c)%Z →
  let st' := foldl (read_record c allowed) st records in
  ∃ batches',
    futures st' = batch_future allowed <$> batches'
    ∧ Forall (λ b, Z.of_nat (length b) = c) batches'
    ∧ (Z.of_nat (length (cur_chunk st')) < c)%Z
    ∧ mjoin batches' ++ cur_chunk st' = mjoin batches ++ cur_chunk st ++ records.
Proof.
  intros Hc. revert st batches.
  induction records as [|r records IH]; intros st batches Hf Hfull Hcur.
  - exists batches. simpl. by rewrite app_nil_r.
  - cbn [foldl]. set (st1 := read_record c allowed st r).
    assert (∃ bs1, futures st1 = batch_future allowed <$> bs1
              ∧ Forall (λ b, Z.of_nat (length b) = c) bs1
              ∧ (Z.of_nat (length (cur_chunk st1)) < c)%Z
              ∧ mjoin bs1 ++ cur_chunk st1 = mjoin batches ++ cur_chunk st ++ [r])
      as (bs1 & Hf1 & Hfull1 & Hcur1 & Hj1).
    { subst st1. unfold read_record. case_bool_decide as Hlen; simpl.
      - exists (batches ++ [cur_chunk st ++ [r]]). split_and!.
        + by rewrite Hf, fmap_app.
        + apply Forall_app. split; [done|]. constructor; [|done].
          rewrite length_app in *. simpl in *. lia.
        + lia.
        + rewrite join_app. simpl. by rewrite !app_nil_r.
      - exists batches. split_and!; [done|done|lia|done]. }
    destruct (IH st1 bs1 Hf1 Hfull1 Hcur1) as (bs & Hf' & Hfull' & Hcur' & Hj).
    exists bs. split_and!; [done|done|done|].
    rewrite Hj, (app_assoc (mjoin bs1)), Hj1, <-!app_assoc. done.
Qed.

(** X1.  With a chunk size of at least 1, the batches submitted are
    consecutive pieces of the input, none of them empty and none longer
    than the chunk size, and every batch but the last holds exactly the
    chunk size. *)
Theorem read_chunks_sizes (c : Z) (allowed : gset ascii) (records : list SeqRecord.t) :
  (1 ≤ c)%Z →
  ∃ batches,
    futures (read_chunks c allowed records)
    = (λ batch, process_chunk batch allowed) <$> batches
    ∧ mjoin batches = records
    ∧ Forall (λ b, b ≠ [] ∧ (Z.of_nat (length b) ≤ c)%Z) batches
    ∧ ∀ i b, batches !! i = Some b → S i < length batches → Z.of_nat (length b) = c.
Proof.
  intros Hc. unfold read_chunks.
  destruct (read_loop_sizes c allowed records
              {| input_count := 0; cur_chunk := []; futures := [] |} [] Hc)
    as (bs & Hf & Hfull & Hcur & Hj); [done|done|simpl; lia|].
  simpl in Hj.
  assert (Hbs : Forall (λ b, b ≠ [] ∧ (Z.of_nat (length b) ≤ c)%Z) bs).
  { eapply Forall_impl; [exact Hfull|]. intros b Hb. cbv beta in Hb.
    split; [|lia]. intros ->. simpl in Hb. lia. }
  destruct (cur_chunk _) as [|r chunk'] eqn:Hlast.
  - exists bs. rewrite app_nil_r in Hj. split_and!; [exact Hf|done|done|].
    intros i b Hi _. eapply Forall_lookup_1 in Hfull; [|exact Hi]. done.
  - exists (bs ++ [r :: chunk']). cbn [futures]. split_and!.
    + rewrite Hf, fmap_app. reflexivity.
    + rewrite join_app. simpl. by rewrite app_nil_r.
    + apply Forall_app. split; [done|]. constructor; [|done].
      split; [done|]. lia.
    + intros i b Hi Hlt. rewrite length_app in Hlt. simpl in Hlt.
      rewrite lookup_app_l in Hi by lia.
      eapply Forall_lookup_1 in Hfull; [|exact Hi]. done.
Qed.

Lemma read_chunks_sizes_witness :
  ∃ batches,
    futures (read_chunks 2 (standard_aa_of false) [seq1; seq2; seq3])
    = (λ batch, process_chunk batch (standard_aa_of false)) <$> batches
    ∧ mjoin batches = [seq1; seq2; seq3]
    ∧ Forall (λ b, b ≠ [] ∧ (Z.of_nat (length b) ≤ 2)%Z) batches
    ∧ ∀ i b, batches !! i = Some b → S i < length batches → Z.of_nat (length b) = 2%Z.
Proof. apply (read_chunks_sizes 2 (standard_aa_of false) [seq1; seq2; seq3]). lia. Defined.

Lemma read_loop_singletons (c : Z) allowed records st :
  (c ≤ 1)%Z →
  cur_chunk st = [] →
  let st' := foldl (read_record c allowed) st records in
  cur_chunk st' = []
  ∧ futures st' = futures st ++ ((λ r, batch_future allowed [r]) <$> records).
Proof.
  intros Hc. revert st. induction records as [|r records IH]; intros st Hcur.
  - simpl. by rewrite app_nil_r.
  - cbn [foldl]. set (st1 := read_record c allowed st r).
    assert (cur_chunk st1 = [] ∧ futures st1 = futures st ++ [batch_future allowed [r]])
      as [Hcur1 Hf1].
    { subst st1. unfold read_record. rewrite Hcur. simpl.
      rewrite bool_decide_eq_true_2 by lia. done. }
    destruct (IH st1 Hcur1) as [Hcur' Hf']. split; [done|].
    rewrite Hf', Hf1, fmap_cons, <-app_assoc. done.
Qed.

(** X2.  With a chunk size of 1, of 0 or below 0, every record is submitted
    alone: there is one future per record, in input order, and no batch is
    left over. *)
Theorem read_chunks_small_chunk (c : Z) (allowed : gset ascii)
    (records : list SeqRecord.t) :
  (c ≤ 1)%Z →
  futures (read_chunks c allowed records)
  = (λ r, process_chunk [r] allowed) <$> records
  ∧ cur_chunk (read_chunks c allowed records) = [].
Proof.
  intros Hc. unfold read_chunks.
  destruct (read_loop_singletons c allowed records
              {| input_count := 0; cur_chunk := []; futures := [] |} Hc eq_refl)
    as [Hcur Hf].
  rewrite Hcur. done.
Qed.

Lemma read_chunks_small_chunk_witness :
  futures (read_chunks (-3) (standard_aa_of false) [seq1; seq2; seq3])
  = (λ r, process_chunk [r] (standard_aa_of false)) <$> [seq1; seq2; seq3]
  ∧ cur_chunk (read_chunks (-3) (standard_aa_of false) [seq1; seq2; seq3]) = [].
Proof. apply (read_chunks_small_chunk (-3) (standard_aa_of false) [seq1; seq2; seq3]). lia. Defined.

(** ** The alphabet-filter stage (lines 41 to 87 of [main]) *)

(** The stage, run on results that are collected in a given order. *)
Lemma alphabet_stage_run {float} (SeqIO_parse : string → result (list SeqRecord.t))
    as_completed (args : Args float) (fs : gmap string string) text records
    (rs : list PartitionResult) :
  (0 < threads args)%Z →
  <[report args := ""]> fs !! input args = Some text →
  SeqIO_parse text = Returned records →
  as_completed (futures (read_chunks (chunk args) (standard_aa_of (keep_uo args)) records))
  = Returned <$> rs →
  alphabet_stage SeqIO_parse as_completed args fs
  = (Returned (read_chunks (chunk args) (standard_aa_of (keep_uo args)) records,
               {| total_kept := length (mjoin rs.*1);
                  total_removed := length (mjoin rs.*2);
                  temp_files := filter (λ kept, kept ≠ []) rs.*1 |}),
     <[report args := report_text (mjoin rs.*2)]> fs).
Proof.
  intros Hthreads Hinput Hparse Hrs. unfold alphabet_stage, alphabet_stage_in.
  unfold mbind at 1, IO_bind at 1, write_file at 1.
  rewrite bool_decide_eq_false_2 by lia.
  unfold mbind at 1, IO_bind at 1. unfold mret at 1, IO_ret at 1.
  unfold mbind at 1, IO_bind at 1. rewrite (open_read_empty _ _ _ Hinput).
  unfold mbind at 1, IO_bind at 1, lift at 1. rewrite Hparse.
  unfold mbind at 1, IO_bind at 1, merge_futures at 1. rewrite Hrs.
  rewrite (merge_loop_spec _ _ _ _ "") by apply lookup_insert_eq.
  rewrite insert_insert_eq. reflexivity.
Qed.

Lemma filter_length_complement {A} (P : A → Prop) `{!∀ x, Decision (P x)} (l : list A) :
  length (filter P l) + length (filter (λ x, ¬ P x) l) = length l.
Proof. by rewrite <-length_app, filter_app_complement. Qed.

(** X3.  Accounting: when every sequence of the input can be decoded,
    the stage succeeds and the number of records read is the number of
    records kept plus the number of records removed, so the first three
    lines of the summary add up. *)
Theorem stage_counts_add_up {float} (SeqIO_parse : string → result (list SeqRecord.t))
    (as_completed : list (Future PartitionResult) → list (Future PartitionResult))
    (args : Args float) (fs : gmap string string) text records :
  (∀ l, as_completed l ≡ₚ l) →
  (0 < threads args)%Z →
  <[report args := ""]> fs !! input args = Some text →
  SeqIO_parse text = Returned records →
  Forall decodable records →
  ∃ rd mg fs',
    alphabet_stage SeqIO_parse as_completed args fs = (Returned (rd, mg), fs')
    ∧ input_count rd = length records
    ∧ input_count rd = total_kept mg + total_removed mg.
Proof.
  intros Hperm Hthreads Hinput Hparse Hdec.
  destruct (alphabet_stage_spec SeqIO_parse as_completed Hperm args fs text records)
    as (rd & mg & rem & Hrun & _ & Hn & Hk & Hr & Hkept & Hrem); [done..|].
  exists rd, mg, (<[report args := report_text rem]> fs).
  split_and!; [done|done|].
  rewrite Hn, Hk, Hr, Hkept, Hrem, length_fmap.
  by rewrite filter_length_complement.
Qed.

Lemma stage_counts_add_up_witness :
  ∃ rd mg fs',
    alphabet_stage sample_parse reverse sample_args sample_fs = (Returned (rd, mg), fs')
    ∧ input_count rd = 3
    ∧ input_count rd = total_kept mg + total_removed mg.
Proof.
  apply (stage_counts_add_up sample_parse reverse sample_args sample_fs sample_fasta
           [seq1; seq2; seq3]).
  - intros l. apply reverse_Permutation.
  - reflexivity.
  - reflexivity.
  - reflexivity.
  - apply (bool_decide_unpack _). vm_compute. exact I.
Defined.

(** X4.  When every sequence of the input can be decoded and the results
    are collected in the order of submission, the kept records come out in
    input order and the report lists the removed records in input order:
    only the completion order can reorder them. *)
Theorem submission_order_keeps_input_order {float}
    (SeqIO_parse : string → result (list SeqRecord.t))
    (args : Args float) (fs : gmap string string) text records :
  (0 < threads args)%Z →
  <[report args := ""]> fs !! input args = Some text →
  SeqIO_parse text = Returned records →
  Forall decodable records →
  ∃ rd mg,
    alphabet_stage SeqIO_parse (λ l, l) args fs
    = (Returned (rd, mg),
       <[report args :=
           report_text ((λ r, (SeqRecord.id r, upper (SeqRecord.seq r)))
             <$> filter (λ r, ¬ all_in_alphabet (standard_aa_of (keep_uo args)) r)
                   records)]> fs)
    ∧ mjoin (temp_files mg)
      = filter (all_in_alphabet (standard_aa_of (keep_uo args))) records.
Proof.
  intros Hthreads Hinput Hparse Hdec.
  set (allowed := standard_aa_of (keep_uo args)).
  destruct (read_chunks_spec (chunk args) allowed records) as (batches & Hfut & Hjoin & _).
  destruct (batch_results allowed batches) as (Hres & Hkept & Hrem);
    [by rewrite Hjoin|].
  rewrite Hres in Hfut.
  do 2 eexists. split.
  - rewrite (alphabet_stage_run SeqIO_parse (λ l, l) args fs text records _
               Hthreads Hinput Hparse Hfut).
    fold allowed. rewrite Hrem, Hjoin. reflexivity.
  - cbn [temp_files]. by rewrite join_filter_nonempty, Hkept, Hjoin.
Qed.

Lemma submission_order_keeps_input_order_witness :
  ∃ rd mg,
    alphabet_stage sample_parse (λ l, l) (with_chunk 1 sample_args) sample_fs
    = (Returned (rd, mg),
       <[report sample_args :=
           report_text ((λ r, (SeqRecord.id r, upper (SeqRecord.seq r)))
             <$> filter (λ r, ¬ all_in_alphabet (standard_aa_of false) r)
                   [seq1; seq2; seq3])]> sample_fs)
    ∧ mjoin (temp_files mg)
      = filter (all_in_alphabet (standard_aa_of false)) [seq1; seq2; seq3].
Proof.
  apply (submission_order_keeps_input_order sample_parse (with_chunk 1 sample_args)
           sample_fs sample_fasta [seq1; seq2; seq3]).
  - reflexivity.
  - reflexivity.
  - reflexivity.
  - apply (bool_decide_unpack _). vm_compute. exact I.
Defined.

(** X5.  A thread count of zero or less makes the worker pool refuse to
    start: [main] ends with a [ValueError] after the report has been
    emptied and before the source is opened, whether or not the source
    exists, and writes no output. *)
Theorem no_threads_aborts {float} (SeqIO_parse : string → result (list SeqRecord.t))
    (SeqIO_write : list SeqRecord.t → string)
    (seqkit_seq : Z → Z → Z → string → Z * string)
    (cd_hit : string → float → Z → Z * string * option string)
    (as_completed : list (Future PartitionResult) → list (Future PartitionResult))
    (args : Args float) (fs : gmap string string) :
  (threads args ≤ 0)%Z →
  main SeqIO_parse SeqIO_write seqkit_seq cd_hit as_completed args fs
  = (Raised (ValueError "max_workers must be greater than 0"),
     <[report args := ""]> fs).
Proof.
  intros Hthreads. unfold main, main_in, alphabet_stage_in.
  unfold mbind at 1, IO_bind at 1. unfold mbind at 1, IO_bind at 1, write_file at 1.
  rewrite bool_decide_eq_true_2 by done. reflexivity.
Qed.

Lemma no_threads_aborts_witness :
  main sample_parse sample_write sample_seqkit sample_cd_hit (λ l, l)
    {| input := "input.faa"; output := "processed.faa"; report := "removed.txt";
       threads := 0; chunk := 2; keep_uo := false; min_len := 100; max_len := 1500;
       identity := (); skip_length := false; skip_cdhit := false |} sample_fs
  = (Raised (ValueError "max_workers must be greater than 0"),
     <["removed.txt" := ""]> sample_fs).
Proof.
  apply (no_threads_aborts sample_parse sample_write sample_seqkit sample_cd_hit (λ l, l)
    {| input := "input.faa"; output := "processed.faa"; report := "removed.txt";
       threads := 0; chunk := 2; keep_uo := false; min_len := 100; max_len := 1500;
       identity := (); skip_length := false; skip_cdhit := false |} sample_fs).
  simpl. lia.
Defined.

(** X6.  When the report path is the source path, the source is emptied
    before it is read: the stage reads the empty text, whatever the file
    held, and with a reader that finds no record in the empty text it
    processes nothing and leaves the file empty. *)
Theorem report_path_is_input_path {float}
    (SeqIO_parse : string → result (list SeqRecord.t))
    (as_completed : list (Future PartitionResult) → list (Future PartitionResult))
    (args : Args float) (fs : gmap string string) :
  (∀ l, as_completed l ≡ₚ l) →
  (0 < threads args)%Z →
  report args = input args →
  SeqIO_parse "" = Returned [] →
  ∃ rd mg,
    alphabet_stage SeqIO_parse as_completed args fs
    = (Returned (rd, mg), <[input args := ""]> fs)
    ∧ input_count rd = 0 ∧ total_kept mg = 0 ∧ total_removed mg = 0.
Proof.
  intros Hperm Hthreads Halias Hparse.
  destruct (alphabet_stage_spec SeqIO_parse as_completed Hperm args fs "" [])
    as (rd & mg & rem & Hrun & _ & Hn & Hk & Hr & Hkept & Hrem); [done| |done|done|].
  { rewrite Halias. apply lookup_insert_eq. }
  rewrite filter_nil in Hkept. rewrite filter_nil, fmap_nil in Hrem.
  apply Permutation_nil_r in Hkept. apply Permutation_nil_r in Hrem. subst rem.
  exists rd, mg. rewrite Hrun, Halias. split_and!; [done|done| |done].
  by rewrite Hk, Hkept.
Qed.

Lemma report_path_is_input_path_witness :
  ∃ rd mg,
    alphabet_stage sample_parse (λ l, l)
      {| input := "input.faa"; output := "processed.faa"; report := "input.faa";
         threads := 1; chunk := 2; keep_uo := false; min_len := 100; max_len := 1500;
         identity := (); skip_length := false; skip_cdhit := false |} sample_fs
    = (Returned (rd, mg), <["input.faa" := ""]> sample_fs)
    ∧ input_count rd = 0 ∧ total_kept mg = 0 ∧ total_removed mg = 0.
Proof.
  apply (report_path_is_input_path sample_parse (λ l, l)
    {| input := "input.faa"; output := "processed.faa"; report := "input.faa";
       threads := 1; chunk := 2; keep_uo := false; min_len := 100; max_len := 1500;
       identity := (); skip_length := false; skip_cdhit := false |} sample_fs).
  - reflexivity.
  - reflexivity.
  - reflexivity.
  - reflexivity.
Defined.

(** ** The later steps of [main] (lines 89 to 148) *)

(** X7.  When the length-filter tool exits with a status other than 0,
    [main] ends with [CalledProcessError] carrying that status; the files
    are as the alphabet-filter stage left them, so no output is written. *)
Theorem length_filter_failure_aborts {float}
    (SeqIO_parse : string → result (list SeqRecord.t))
    (SeqIO_write : list SeqRecord.t → string)
    (seqkit_seq : Z → Z → Z → string → Z * string)
    (cd_hit : string → float → Z → Z * string * option string)
    (as_completed : list (Future PartitionResult) → list (Future PartitionResult))
    (args : Args float) (fs fs1 : gmap string string) rd mg returncode out :
  alphabet_stage SeqIO_parse as_completed args fs = (Returned (rd, mg), fs1) →
  skip_length _ args = false →
  seqkit_seq (threads args) (min_len _ args) (max_len _ args)
    (foldl (λ text kept, text +:+ SeqIO_write kept) "" (temp_files mg))
  = (returncode, out) →
  returncode ≠ 0%Z →
  main SeqIO_parse SeqIO_write seqkit_seq cd_hit as_completed args fs
  = (Raised (CalledProcessError returncode), fs1).
Proof.
  intros Hstage Hskip Htool Hrc. unfold alphabet_stage in Hstage. unfold main, main_in.
  unfold mbind at 1, IO_bind at 1. rewrite Hstage, Hskip. cbn [negb].
  unfold mbind at 1, IO_bind at 1. unfold mbind at 1, IO_bind at 1.
  unfold lift at 1, length_filter at 1. rewrite Htool.
  rewrite bool_decide_eq_false_2 by done. reflexivity.
Qed.

Lemma length_filter_failure_aborts_witness :
  ∃ fs1,
    main sample_parse sample_write failing_seqkit sample_cd_hit (λ l, l) sample_args sample_fs
    = (Raised (CalledProcessError 1), fs1)
    ∧ fs1 !! "processed.faa" = None.
Proof.
  eexists. split.
  - eapply (length_filter_failure_aborts sample_parse sample_write failing_seqkit
              sample_cd_hit (λ l, l) sample_args sample_fs).
    + vm_compute. reflexivity.
    + reflexivity.
    + reflexivity.
    + discriminate.
  - vm_compute. reflexivity.
Defined.

(** X8.  When the clustering tool exits with a status other than 0, after
    a length step that was skipped or succeeded, [main] ends with
    [CalledProcessError] carrying that status; no cluster file and no
    output is written. *)
Theorem cd_hit_failure_aborts {float}
    (SeqIO_parse : string → result (list SeqRecord.t))
    (SeqIO_write : list SeqRecord.t → string)
    (seqkit_seq : Z → Z → Z → string → Z * string)
    (cd_hit : string → float → Z → Z * string * option string)
    (as_completed : list (Future PartitionResult) → list (Future PartitionResult))
    (args : Args float) (fs fs1 : gmap string string) rd mg current returncode out cluster :
  alphabet_stage SeqIO_parse as_completed args fs = (Returned (rd, mg), fs1) →
  length_step_gives SeqIO_parse seqkit_seq args
    (foldl (λ text kept, text +:+ SeqIO_write kept) "" (temp_files mg)) current →
  skip_cdhit _ args = false →
  cd_hit current (identity _ args) (threads args) = (returncode, out, cluster) →
  returncode ≠ 0%Z →
  main SeqIO_parse SeqIO_write seqkit_seq cd_hit as_completed args fs
  = (Raised (CalledProcessError returncode), fs1).
Proof.
  intros Hstage Hlen Hskip Htool Hrc. unfold alphabet_stage in Hstage. unfold main, main_in.
  unfold mbind at 1, IO_bind at 1. rewrite Hstage.
  destruct Hlen as [[Hskip2 ->]|(Hskip2 & Htool2 & records2 & Hparse2)];
    rewrite Hskip2, Hskip; cbn [negb].
  - unfold mbind at 1, IO_bind at 1. unfold mret at 1, IO_ret at 1.
    unfold mbind at 1, IO_bind at 1. unfold mbind at 1, IO_bind at 1.
    unfold lift at 1, cd_hit_cluster at 1. rewrite Htool.
    rewrite bool_decide_eq_false_2 by done. reflexivity.
  - unfold mbind at 1, IO_bind at 1. unfold mbind at 1, IO_bind at 1.
    unfold lift at 1, length_filter at 1. rewrite Htool2.
    rewrite bool_decide_eq_true_2 by done.
    unfold mbind at 1, IO_bind at 1. unfold lift at 1, count_records at 1.
    rewrite Hparse2. unfold mret at 1, IO_ret at 1.
    unfold mbind at 1, IO_bind at 1. unfold mbind at 1, IO_bind at 1.
    unfold lift at 1, cd_hit_cluster at 1. rewrite Htool.
    rewrite bool_decide_eq_false_2 by done. reflexivity.
Qed.

Lemma cd_hit_failure_aborts_witness :
  ∃ fs1,
    main sample_parse sample_write sample_seqkit failing_cd_hit (λ l, l) sample_args sample_fs
    = (Raised (CalledProcessError 1), fs1)
    ∧ fs1 !! "processed.faa" = None
    ∧ fs1 !! "processed.faa.clstr" = None.
Proof.
  eexists. split.
  - eapply (cd_hit_failure_aborts sample_parse sample_write sample_seqkit
              failing_cd_hit (λ l, l) sample_args sample_fs).
    + vm_compute. reflexivity.
    + right. split; [reflexivity|]. split; [reflexivity|].
      eexists. vm_compute. reflexivity.
    + reflexivity.
    + reflexivity.
    + discriminate.
  - vm_compute. done.
Defined.

Lemma IO_bind_assoc {A B C} (m : IO A) (f : A → IO B) (g : B → IO C)
    (fs : gmap string string) :
  ((m ≫= f) ≫= g) fs = (m ≫= λ a, f a ≫= g) fs.
Proof.
  unfold mbind, IO_bind. destruct (m fs) as [[a|e] fs']; [|done].
  by destruct (f a fs') as [[b|e] fs''].
Qed.

Lemma IO_bind_run {A B} (m : IO A) (k : A → IO B) (fs fs' : gmap string string) a :
  m fs = (Returned a, fs') → (m ≫= k) fs = k a fs'.
Proof. intros H. unfold mbind, IO_bind. by rewrite H. Qed.

Lemma IO_ret_bind {A B} (a : A) (k : A → IO B) (fs : gmap string string) :
  (mret a ≫= k) fs = k a fs.
Proof. reflexivity. Qed.

Lemma IO_lift_bind {A B} (a : A) (k : A → IO B) (fs : gmap string string) :
  (lift (Returned a) ≫= k) fs = k a fs.
Proof. reflexivity. Qed.

Lemma IO_write_bind {B} path text (k : unit → IO B) (fs : gmap string string) :
  (write_file path text ≫= k) fs = k () (<[path := text]> fs).
Proof. reflexivity. Qed.

Ltac solve_frame :=
  repeat first
    [ apply frame_ret
    | apply frame_lift
    | apply frame_write; intros ? ->; assumption
    | apply frame_bind; [|intros ?]
    | match goal with
      | |- frame _ (if ?b then _ else _) => destruct b
      | |- frame _ (match ?x with _ => _ end) => destruct x
      end ].

Ltac frame_at_path :=
  match goal with
  | |- (?m ?fs2).2 !! ?p = _ =>
      rewrite (λ H : frame (λ q, q = p) m, H fs2 p eq_refl); [|solve_frame]
  end.

(** X9.  When the clustering tool succeeds and leaves a cluster file, the
    file is copied to the output path followed by [.clstr], and stays
    there whether the rest of the run succeeds or not. *)
Theorem cluster_file_copied {float}
    (SeqIO_parse : string → result (list SeqRecord.t))
    (SeqIO_write : list SeqRecord.t → string)
    (seqkit_seq : Z → Z → Z → string → Z * string)
    (cd_hit : string → float → Z → Z * string * option string)
    (as_completed : list (Future PartitionResult) → list (Future PartitionResult))
    (args : Args float) (fs fs1 : gmap string string) rd mg current out cluster :
  alphabet_stage SeqIO_parse as_completed args fs = (Returned (rd, mg), fs1) →
  length_step_gives SeqIO_parse seqkit_seq args
    (foldl (λ text kept, text +:+ SeqIO_write kept) "" (temp_files mg)) current →
  skip_cdhit _ args = false →
  cd_hit current (identity _ args) (threads args) = (0%Z, out, Some cluster) →
  (main SeqIO_parse SeqIO_write seqkit_seq cd_hit as_completed args fs).2
    !! (output args +:+ ".clstr")
  = Some cluster.
Proof.
  intros Hstage Hlen Hskip Htool. unfold alphabet_stage in Hstage. unfold main, main_in.
  rewrite (IO_bind_run _ _ _ _ _ Hstage). cbn beta iota.
  assert (Hcluster : cd_hit_cluster float cd_hit current (identity _ args) (threads args)
                     = Returned (out, Some cluster)).
  { unfold cd_hit_cluster. by rewrite Htool. }
  assert (Hne : output args +:+ ".clstr" ≠ output args).
  { apply str_app_neq. discriminate. }
  destruct Hlen as [[Hskip2 ->]|(Hskip2 & Htool2 & records2 & Hparse2)];
    rewrite Hskip2, Hskip; cbn [negb].
  - rewrite IO_ret_bind. cbn beta iota.
    rewrite !IO_bind_assoc. rewrite Hcluster, IO_lift_bind. cbn beta iota.
    rewrite !IO_bind_assoc, IO_write_bind.
    frame_at_path. apply lookup_insert_eq.
  - assert (Hlf : length_filter seqkit_seq
             (foldl (λ text kept, text +:+ SeqIO_write kept) "" (temp_files mg))
             (min_len _ args) (max_len _ args) (threads args) = Returned current).
    { unfold length_filter. by rewrite Htool2. }
    assert (Hcount : count_records SeqIO_parse current
                     = Returned (Z.of_nat (length records2))).
    { unfold count_records. by rewrite Hparse2. }
    rewrite !IO_bind_assoc. rewrite Hlf, IO_lift_bind. cbn beta.
    rewrite !IO_bind_assoc. rewrite Hcount, IO_lift_bind. cbn beta.
    rewrite IO_ret_bind. cbn beta iota.
    rewrite !IO_bind_assoc. rewrite Hcluster, IO_lift_bind. cbn beta iota.
    rewrite !IO_bind_assoc, IO_write_bind.
    frame_at_path. apply lookup_insert_eq.
Qed.

Lemma cluster_file_copied_witness :
  (main sample_parse sample_write sample_seqkit clustering_cd_hit (λ l, l)
     sample_args sample_fs).2 !! (output sample_args +:+ ".clstr")
  = Some ">Cluster 0".
Proof.
  eapply (cluster_file_copied sample_parse sample_write sample_seqkit
            clustering_cd_hit (λ l, l) sample_args sample_fs).
  - vm_compute. reflexivity.
  - right. split; [reflexivity|]. split; [reflexivity|].
    eexists. vm_compute. reflexivity.
  - reflexivity.
  - reflexivity.
Defined.

(** X10.  A skipped step never runs its tool: with [--skip-length] the run
    does not depend on the length-filter tool at all, and with
    [--skip-cdhit] it does not depend on the clustering tool. *)
Theorem skipped_tools_never_run {float}
    (SeqIO_parse : string → result (list SeqRecord.t))
    (SeqIO_write : list SeqRecord.t → string)
    (seqkit_seq seqkit_seq' : Z → Z → Z → string → Z * string)
    (cd_hit cd_hit' : string → float → Z → Z * string * option string)
    (as_completed : list (Future PartitionResult) → list (Future PartitionResult))
    (args : Args float) (fs : gmap string string) :
  (skip_length _ args = true →
   main SeqIO_parse SeqIO_write seqkit_seq cd_hit as_completed args fs
   = main SeqIO_parse SeqIO_write seqkit_seq' cd_hit as_completed args fs)
  ∧ (skip_cdhit _ args = true →
     main SeqIO_parse SeqIO_write seqkit_seq cd_hit as_completed args fs
     = main SeqIO_parse SeqIO_write seqkit_seq cd_hit' as_completed args fs).
Proof.
  split; intros Hskip; unfold main, main_in; rewrite Hskip; reflexivity.
Qed.

Lemma skipped_tools_never_run_witness :
  main sample_parse sample_write sample_seqkit sample_cd_hit (λ l, l) skip_args sample_fs
  = main sample_parse sample_write failing_seqkit sample_cd_hit (λ l, l) skip_args sample_fs
  ∧ main sample_parse sample_write sample_seqkit sample_cd_hit (λ l, l) skip_args sample_fs
    = main sample_parse sample_write sample_seqkit failing_cd_hit (λ l, l) skip_args sample_fs.
Proof.
  split.
  - apply (skipped_tools_never_run sample_parse sample_write sample_seqkit failing_seqkit
             sample_cd_hit failing_cd_hit (λ l, l) skip_args sample_fs). reflexivity.
  - apply (skipped_tools_never_run sample_parse sample_write sample_seqkit failing_seqkit
             sample_cd_hit failing_cd_hit (λ l, l) skip_args sample_fs). reflexivity.
Defined.

Lemma frame_raise {A} P (e : exn) : frame P (raise (A:=A) e).
Proof. by intros fs p _. Qed.

Lemma frame_read P denied path : frame P (open_read denied path).
Proof.
  intros fs p _. unfold open_read.
  destruct (fs !! path); [by destruct (bool_decide _)|done].
Qed.

Lemma frame_append P path text :
  (∀ p, P p → p ≠ path) → frame P (append_file path text).
Proof.
  intros HP fs p Hp. simpl. rewrite lookup_insert_ne; [done|].
  intros ->. by eapply HP.
Qed.

Lemma frame_for_each {A S} P (body : S → A → IO S) s l :
  (∀ s x, frame P (body s x)) → frame P (for_each body s l).
Proof.
  intros Hbody. revert s. induction l as [|x l IH]; intros s.
  - apply frame_ret.
  - cbn [for_each]. apply frame_bind; [apply Hbody|intros s'; apply IH].
Qed.

(** X11.  Whatever happens in a run, [main] touches no file but the
    report, the output and the cluster file beside the output: every other
    path, the source included, holds afterwards what it held before. *)
Theorem main_writes_three_files {float}
    (SeqIO_parse : string → result (list SeqRecord.t))
    (SeqIO_write : list SeqRecord.t → string)
    (seqkit_seq : Z → Z → Z → string → Z * string)
    (cd_hit : string → float → Z → Z * string * option string)
    (as_completed : list (Future PartitionResult) → list (Future PartitionResult))
    (args : Args float) (fs : gmap string string) (path : string) :
  path ≠ report args →
  path ≠ output args →
  path ≠ output args +:+ ".clstr" →
  (main SeqIO_parse SeqIO_write seqkit_seq cd_hit as_completed args fs).2 !! path
  = fs !! path.
Proof.
  intros Hr Ho Hc.
  apply (λ H : frame (λ p, p = path)
                 (main SeqIO_parse SeqIO_write seqkit_seq cd_hit as_completed args),
           H fs path eq_refl).
  unfold main, main_in, alphabet_stage_in, merge_futures.
  repeat first
    [ apply frame_ret
    | apply frame_lift
    | apply frame_raise
    | apply frame_read
    | apply frame_write; intros ? ->; assumption
    | apply frame_append; intros ? ->; assumption
    | apply frame_for_each; intros ? ?; unfold merge_future
    | apply frame_bind; [|intros ?]
    | match goal with
      | |- frame _ (if ?b then _ else _) => destruct b
      | |- frame _ (match ?x with _ => _ end) => destruct x
      end ].
Qed.

Lemma main_writes_three_files_witness :
  (main sample_parse sample_write sample_seqkit clustering_cd_hit reverse
     sample_args sample_fs).2 !! "input.faa"
  = sample_fs !! "input.faa".
Proof.
  apply (main_writes_three_files sample_parse sample_write sample_seqkit
           clustering_cd_hit reverse sample_args sample_fs "input.faa").
  - discriminate.
  - discriminate.
  - discriminate.
Defined.

(** ** The renaming pass (lines 132 to 144 of [main]) *)

Lemma occurrences_zero x ids : occurrences x ids = 0 ↔ x ∉ ids.
Proof.
  unfold occurrences. induction ids as [|y ids IH].
  - split; [intros _; apply not_elem_of_nil|done].
  - rewrite filter_cons, not_elem_of_cons. case_decide as Hy; simpl.
    + split; [lia|]. intros [Hne _]. by destruct Hne.
    + rewrite IH. split; [intros ?; split; [congruence|done]|tauto].
Qed.

Lemma rename_counters_spec (records : list SeqRecord.t) :
  unique_ids (rename_duplicates records)
  = size (list_to_set (SeqRecord.id <$> records) : gset string)
  ∧ unique_ids (rename_duplicates records) + duplicate_ids (rename_duplicates records)
    = length records.
Proof.
  induction records as [|record records [IHu IHl]] using rev_ind.
  - split; [|done]. symmetry. apply size_empty.
  - destruct (rename_duplicates_spec records) as [_ Hcount].
    specialize (Hcount (SeqRecord.id record)).
    unfold rename_duplicates in *. rewrite foldl_snoc.
    set (st := foldl rename_record _ records) in *.
    rewrite fmap_app, list_to_set_app_L, length_app. cbn [fmap list_fmap length].
    rewrite list_to_set_singleton.
    unfold rename_record. rewrite Hcount.
    destruct (occurrences (SeqRecord.id record) (SeqRecord.id <$> records))
      as [|n] eqn:Hocc; cbn [unique_ids duplicate_ids].
    + apply occurrences_zero in Hocc. split; [|lia].
      rewrite size_union, size_singleton; [lia|].
      apply disjoint_singleton_r. by rewrite elem_of_list_to_set.
    + assert (Hin : SeqRecord.id record ∈ SeqRecord.id <$> records).
      { destruct (decide (SeqRecord.id record ∈ SeqRecord.id <$> records)) as [|Hnot];
          [done|]. apply occurrences_zero in Hnot. lia. }
      split; [|lia]. rewrite IHu. f_equal.
      apply set_eq. intros x. rewrite elem_of_union, elem_of_singleton.
      rewrite elem_of_list_to_set. split; [by left|]. intros [?| ->]; done.
Qed.

(** X12.  The counters of the renaming pass: the records counted as
    unique are as many as there are distinct identifiers, and unique and
    renamed records together are all the records. *)
Theorem rename_counters (records : list SeqRecord.t) :
  unique_ids (rename_duplicates records)
  = size (list_to_set (SeqRecord.id <$> records) : gset string)
  ∧ unique_ids (rename_duplicates records) + duplicate_ids (rename_duplicates records)
    = length records.
Proof.
  destruct (rename_counters_spec records) as [Hunique Hall].
  split; [exact Hunique|exact Hall].
Qed.

(** X13.  On records whose identifiers are all different the renaming pass
    changes nothing: every record is written as it was read and none is
    counted as renamed. *)
Theorem rename_distinct_ids (records : list SeqRecord.t) :
  NoDup (SeqRecord.id <$> records) →
  written (rename_duplicates records) = records
  ∧ duplicate_ids (rename_duplicates records) = 0
  ∧ unique_ids (rename_duplicates records) = length records.
Proof.
  intros Hnodup.
  assert (Hw : written (rename_duplicates records) = records).
  { destruct (rename_duplicates_spec records) as [-> _].
    assert (Hid : imap (λ (_ : nat) (r : SeqRecord.t), r) records = records).
    { etrans; [apply (imap_const id)|apply list_fmap_id]. }
    rewrite <-Hid at 2. apply imap_ext. intros i r Hi.
    assert (earlier records i r = 0) as ->; [|done].
    unfold earlier. apply occurrences_zero. intros Hin.
    apply list_elem_of_lookup in Hin as [j Hj].
    apply lookup_take_Some in Hj as [Hj Hlt].
    assert (Hi' : (SeqRecord.id <$> records) !! i = Some (SeqRecord.id r)).
    { by rewrite list_lookup_fmap, Hi. }
    pose proof (NoDup_lookup _ _ _ _ Hnodup Hj Hi'). lia. }
  destruct (rename_counters_spec records) as [Hu Hl].
  assert (Hsize : size (list_to_set (SeqRecord.id <$> records) : gset string)
                  = length records).
  { rewrite size_list_to_set by done. apply length_fmap. }
  split_and!; [done|lia|lia].
Qed.

Lemma rename_distinct_ids_witness :
  written (rename_duplicates [seq1; seq2; seq3]) = [seq1; seq2; seq3]
  ∧ duplicate_ids (rename_duplicates [seq1; seq2; seq3]) = 0
  ∧ unique_ids (rename_duplicates [seq1; seq2; seq3]) = 3.
Proof.
  apply (rename_distinct_ids [seq1; seq2; seq3]).
  apply (bool_decide_unpack _). vm_compute. exact I.
Defined.

(** X14.  The pass does not check a generated identifier against the
    identifiers of the input: records named x, x and x_1 are written as x,
    x_1 and x_1, so the output can hold the same identifier twice. *)
Theorem rename_can_collide (x d1 d2 d3 s1 s2 s3 : string) :
  SeqRecord.id <$> written (rename_duplicates
    [SeqRecord.mk x d1 s1; SeqRecord.mk x d2 s2; SeqRecord.mk (x +:+ "_1") d3 s3])
  = [x; x +:+ "_1"; x +:+ "_1"].
Proof.
  assert (Hne : x +:+ "_1" ≠ x) by (apply str_app_neq; discriminate).
  unfold rename_duplicates. cbn [foldl].
  unfold rename_record at 3. cbn [id_count SeqRecord.id].
  rewrite lookup_empty. cbn [id_count unique_ids duplicate_ids written].
  unfold rename_record at 2. cbn [id_count SeqRecord.id].
  rewrite lookup_insert_eq. cbn [id_count unique_ids duplicate_ids written].
  unfold rename_record at 1. cbn [id_count SeqRecord.id].
  rewrite lookup_insert_ne by done. rewrite lookup_insert_ne by done.
  rewrite lookup_empty. cbn [written app fmap list_fmap SeqRecord.id].
  reflexivity.
Qed.

(** ** The alphabet filter (lines 8 to 16, and the alphabet of lines 41 to 43) *)

(** One iteration from any accumulator, in terms of the iteration from
    the empty one. *)
Lemma process_record_acc allowed r kept removed :
  process_record allowed (kept, removed) r
  = match process_record allowed ([], []) r with
    | Returned (kept', removed') => Returned (kept ++ kept', removed ++ removed')
    | Raised e => Raised e
    end.
Proof.
  unfold process_record. destruct (str_of_seq (SeqRecord.seq r)) as [text|e]; [|done].
  cbv zeta. case_bool_decide; by rewrite app_nil_r.
Qed.

Lemma process_loop_acc allowed records kept removed :
  fold_result (process_record allowed) (kept, removed) records
  = match fold_result (process_record allowed) ([], []) records with
    | Returned (kept', removed') => Returned (kept ++ kept', removed ++ removed')
    | Raised e => Raised e
    end.
Proof.
  revert kept removed. induction records as [|r records IH]; intros kept removed.
  - simpl. by rewrite !app_nil_r.
  - cbn [fold_result]. rewrite (process_record_acc allowed r kept removed).
    destruct (process_record allowed ([], []) r) as [[k rm]|e]; [|done].
    rewrite (IH (kept ++ k)), (IH k).
    destruct (fold_result _ _ records) as [[kept' removed']|e]; [|done].
    by rewrite <-!app_assoc.
Qed.

Lemma fold_result_app {A S} (body : S → A → result S) s (l1 l2 : list A) :
  fold_result body s (l1 ++ l2)
  = match fold_result body s l1 with
    | Returned s' => fold_result body s' l2
    | Raised e => Raised e
    end.
Proof.
  revert s. induction l1 as [|x l1 IH]; intros s; [done|].
  cbn [app fold_result]. by destruct (body s x).
Qed.

(** X15.  Filtering a batch made of two pieces: when the filter returns
    on both pieces, it returns on the whole their results one after the
    other, for the kept and for the removed records, so cutting the input
    into batches loses and reorders nothing; when it fails on a piece, it
    fails on the whole with the error of the first piece that fails. *)
Theorem process_chunk_app (batch1 batch2 : list SeqRecord.t) (allowed : gset ascii) :
  process_chunk (batch1 ++ batch2) allowed
  = match process_chunk batch1 allowed with
    | Returned (kept1, removed1) =>
        match process_chunk batch2 allowed with
        | Returned (kept2, removed2) => Returned (kept1 ++ kept2, removed1 ++ removed2)
        | Raised e => Raised e
        end
    | Raised e => Raised e
    end.
Proof.
  unfold process_chunk. rewrite fold_result_app.
  destruct (fold_result _ _ batch1) as [[kept1 removed1]|e]; [|done].
  apply process_loop_acc.
Qed.

Lemma filter_weaken_sublist {A} (P Q : A → Prop)
    `{!∀ x, Decision (P x)} `{!∀ x, Decision (Q x)} (l : list A) :
  (∀ x, P x → Q x) → filter P l `sublist_of` filter Q l.
Proof.
  intros HPQ. induction l as [|x l IH]; [done|].
  rewrite !filter_cons. destruct (decide (P x)) as [HP|HP].
  - rewrite decide_True by auto. by constructor.
  - destruct (decide (Q x)); [by constructor|done].
Qed.

(** X16.  A larger alphabet only keeps more: on a batch whose sequences
    can all be decoded, the records kept under an alphabet are, in order,
    among those kept under any alphabet that contains it, and the entries
    removed under the larger one are among those removed under the
    smaller.  In particular [--keep-uo] never removes a record that is
    kept without it. *)
Theorem larger_alphabet_keeps_more (batch : list SeqRecord.t)
    (allowed allowed' : gset ascii) :
  Forall decodable batch →
  allowed ⊆ allowed' →
  ∃ kept removed kept' removed',
    process_chunk batch allowed = Returned (kept, removed)
    ∧ process_chunk batch allowed' = Returned (kept', removed')
    ∧ kept `sublist_of` kept'
    ∧ removed' `sublist_of` removed.
Proof.
  intros Hdec Hsub. do 4 eexists.
  split; [by apply process_chunk_spec|]. split; [by apply process_chunk_spec|].
  assert (Hmono : ∀ r, all_in_alphabet allowed r → all_in_alphabet allowed' r).
  { intros r Hr. unfold all_in_alphabet in *. eapply Forall_impl; [exact Hr|].
    intros c. apply Hsub. }
  split.
  - by apply filter_weaken_sublist.
  - apply fmap_sublist. apply filter_weaken_sublist. intros r Hr Hgood. auto.
Qed.

Lemma larger_alphabet_keeps_more_witness :
  ∃ kept removed kept' removed',
    process_chunk [seq1; seq2; seq3] (standard_aa_of false) = Returned (kept, removed)
    ∧ process_chunk [seq1; seq2; seq3] (standard_aa_of true) = Returned (kept', removed')
    ∧ kept `sublist_of` kept'
    ∧ removed' `sublist_of` removed.
Proof.
  apply (larger_alphabet_keeps_more [seq1; seq2; seq3]
           (standard_aa_of false) (standard_aa_of true)).
  - apply (bool_decide_unpack _). vm_compute. exact I.
  - apply (bool_decide_unpack _). vm_compute. exact I.
Defined.

Lemma upper_char_idemp (c : ascii) : upper_char (upper_char c) = upper_char c.
Proof. destruct c as [[] [] [] [] [] [] [] []]; reflexivity. Qed.

Lemma upper_idemp (s : string) : upper (upper s) = upper s.
Proof.
  induction s as [|c s IH]; [done|]. cbn [upper]. by rewrite upper_char_idemp, IH.
Qed.

Lemma upper_chars (s : string) :
  list_ascii_of_string (upper s) = upper_char <$> list_ascii_of_string s.
Proof. induction s as [|c s IH]; [done|]. cbn. by rewrite IH. Qed.

Lemma upper_char_ascii (c : ascii) :
  (Ascii.N_of_ascii c < 128)%N → (Ascii.N_of_ascii (upper_char c) < 128)%N.
Proof. destruct c as [[] [] [] [] [] [] [] []]; vm_compute; congruence. Qed.

Lemma upper_record_decodable (r : SeqRecord.t) :
  decodable r → decodable (upper_record r).
Proof.
  unfold decodable, upper_record. cbn. rewrite upper_chars, Forall_fmap.
  intros Hr. eapply Forall_impl; [exact Hr|]. intros c. apply upper_char_ascii.
Qed.

(** X17.  The filter does not look at the case of a sequence: a batch
    whose sequences can all be decoded, and in which every sequence is
    put in upper case first, is split in the same way, with the same
    removed entries and with the kept records in upper case. *)
Theorem process_chunk_ignores_case (batch : list SeqRecord.t) (allowed : gset ascii) :
  Forall decodable batch →
  ∃ kept removed,
    process_chunk batch allowed = Returned (kept, removed)
    ∧ process_chunk (upper_record <$> batch) allowed
      = Returned (upper_record <$> kept, removed).
Proof.
  intros Hdec. do 2 eexists. split; [by apply process_chunk_spec|].
  rewrite process_chunk_spec
    by (apply Forall_fmap; eapply Forall_impl; [exact Hdec|apply upper_record_decodable]).
  clear Hdec. f_equal.
  assert (Hsame : ∀ r, all_in_alphabet allowed (upper_record r) ↔ all_in_alphabet allowed r).
  { intros r. unfold all_in_alphabet, upper_record. cbn. by rewrite upper_idemp. }
  induction batch as [|r batch IH]; [done|].
  rewrite fmap_cons, !filter_cons.
  injection IH as IHk IHr.
  destruct (decide (all_in_alphabet allowed r)) as [Hr|Hr].
  - rewrite decide_True by by apply Hsame.
    rewrite !decide_False by (rewrite ?Hsame; tauto).
    rewrite fmap_cons. by rewrite IHk, IHr.
  - rewrite decide_False by by rewrite Hsame.
    rewrite !decide_True by by rewrite ?Hsame.
    rewrite !fmap_cons, IHk, IHr. f_equal. f_equal.
    unfold removed_entry, upper_record. cbn. by rewrite upper_idemp.
Qed.

Lemma process_chunk_ignores_case_witness :
  ∃ kept removed,
    process_chunk [SeqRecord.mk "low" "low case" "acdefg"; seq2] (standard_aa_of false)
    = Returned (kept, removed)
    ∧ process_chunk
        (upper_record <$> [SeqRecord.mk "low" "low case" "acdefg"; seq2])
        (standard_aa_of false)
      = Returned (upper_record <$> kept, removed).
Proof.
  apply (process_chunk_ignores_case [SeqRecord.mk "low" "low case" "acdefg"; seq2]
           (standard_aa_of false)).
  apply (bool_decide_unpack _). vm_compute. exact I.
Defined.

(** X18.  Character by character: in a batch whose sequences can all be
    decoded, a record is kept exactly when the upper-case form of every
    character of its sequence is in the alphabet, so one character outside
    it, such as a stop sign or a gap, removes the record. *)
Theorem kept_iff_every_character (batch : list SeqRecord.t) (allowed : gset ascii)
    (r : SeqRecord.t) :
  Forall decodable batch →
  r ∈ batch →
  ∃ kept removed,
    process_chunk batch allowed = Returned (kept, removed)
    ∧ (r ∈ kept
       ↔ ∀ c, c ∈ list_ascii_of_string (SeqRecord.seq r) → upper_char c ∈ allowed).
Proof.
  intros Hdec Hin. do 2 eexists. split; [by apply process_chunk_spec|].
  rewrite list_elem_of_filter. unfold all_in_alphabet.
  rewrite upper_chars, Forall_fmap, Forall_forall. cbn. tauto.
Qed.

Lemma kept_iff_every_character_witness :
  ∃ kept removed,
    process_chunk [seq1; SeqRecord.mk "p1" "p1 with stop" "MKV*"] (standard_aa_of true)
    = Returned (kept, removed)
    ∧ (SeqRecord.mk "p1" "p1 with stop" "MKV*" ∈ kept
       ↔ ∀ c, c ∈ list_ascii_of_string "MKV*" → upper_char c ∈ standard_aa_of true).
Proof.
  apply (kept_iff_every_character [seq1; SeqRecord.mk "p1" "p1 with stop" "MKV*"]
           (standard_aa_of true) (SeqRecord.mk "p1" "p1 with stop" "MKV*")).
  - apply (bool_decide_unpack _). vm_compute. exact I.
  - apply (bool_decide_unpack _). vm_compute. exact I.
Defined.

(** ** A run with both external steps skipped *)

(** X19.  With [--skip-length] and [--skip-cdhit], after the alphabet
    filter has succeeded, the records read back from its output go
    straight to the renaming pass, whose records are written to the output
    file; the summary counts nothing as removed by length or clustering,
    and the final count is the number of records read back. *)
Theorem main_with_both_skips {float}
    (SeqIO_parse : string → result (list SeqRecord.t))
    (SeqIO_write : list SeqRecord.t → string)
    (seqkit_seq : Z → Z → Z → string → Z * string)
    (cd_hit : string → float → Z → Z * string * option string)
    (as_completed : list (Future PartitionResult) → list (Future PartitionResult))
    (args : Args float) (fs fs1 : gmap string string) rd mg records :
  alphabet_stage SeqIO_parse as_completed args fs = (Returned (rd, mg), fs1) →
  skip_length _ args = true →
  skip_cdhit _ args = true →
  SeqIO_parse (foldl (λ text kept, text +:+ SeqIO_write kept) "" (temp_files mg))
  = Returned records →
  ∃ sm,
    main SeqIO_parse SeqIO_write seqkit_seq cd_hit as_completed args fs
    = (Returned sm,
       <[output args := write_each SeqIO_write (written (rename_duplicates records))]> fs1)
    ∧ step_counts sm !! "input_sequences" = Some (Z.of_nat (input_count rd))
    ∧ step_counts sm !! "removed_nonstandard_aa" = Some (Z.of_nat (total_removed mg))
    ∧ step_counts sm !! "after_aa_filter" = Some (Z.of_nat (total_kept mg))
    ∧ step_counts sm !! "removed_by_length" = Some 0%Z
    ∧ step_counts sm !! "after_length_filter" = Some (Z.of_nat (total_kept mg))
    ∧ step_counts sm !! "removed_by_cdhit" = Some 0%Z
    ∧ step_counts sm !! "after_cdhit" = Some (Z.of_nat (total_kept mg))
    ∧ renamed sm = duplicate_ids (rename_duplicates records)
    ∧ final sm = length records.
Proof.
  intros Hstage Hskip2 Hskip3 Hparse. unfold alphabet_stage in Hstage. unfold main, main_in.
  rewrite (IO_bind_run _ _ _ _ _ Hstage). cbn beta iota.
  rewrite Hskip2, Hskip3. cbn [negb].
  rewrite IO_ret_bind. cbn beta iota. rewrite IO_ret_bind. cbn beta iota.
  rewrite Hparse, IO_lift_bind. cbn beta. rewrite IO_write_bind.
  eexists. split; [reflexivity|]. cbn [step_counts renamed final].
  destruct (rename_counters_spec records) as [_ Hlen].
  split_and!; try done.
Qed.

Lemma main_with_both_skips_witness :
  ∃ rd mg fs1 sm,
    main sample_parse sample_write failing_seqkit failing_cd_hit (λ l, l) skip_args sample_fs
    = (Returned sm,
       <[output skip_args := write_each sample_write (written (rename_duplicates [seq1; seq3]))]>
         fs1)
    ∧ step_counts sm !! "input_sequences" = Some (Z.of_nat (input_count rd))
    ∧ step_counts sm !! "removed_nonstandard_aa" = Some (Z.of_nat (total_removed mg))
    ∧ step_counts sm !! "after_aa_filter" = Some (Z.of_nat (total_kept mg))
    ∧ step_counts sm !! "removed_by_length" = Some 0%Z
    ∧ step_counts sm !! "after_length_filter" = Some (Z.of_nat (total_kept mg))
    ∧ step_counts sm !! "removed_by_cdhit" = Some 0%Z
    ∧ step_counts sm !! "after_cdhit" = Some (Z.of_nat (total_kept mg))
    ∧ renamed sm = duplicate_ids (rename_duplicates [seq1; seq3])
    ∧ final sm = length [seq1; seq3].
Proof.
  do 3 eexists.
  eapply (main_with_both_skips sample_parse sample_write failing_seqkit failing_cd_hit
            (λ l, l) skip_args sample_fs).
  - vm_compute. reflexivity.
  - reflexivity.
  - reflexivity.
  - vm_compute. reflexivity.
Defined.

(** ** A run through both external steps *)

(** X20.  When the alphabet filter and both tools succeed and their
    outputs can be read back, [main] returns: the cluster file, if the
    tool left one, is beside the output; the output holds the renamed
    records of the clustering output; and the summary counts the records
    read back after each step, each removal being the difference between
    two consecutive counts. *)
Theorem main_full_run {float}
    (SeqIO_parse : string → result (list SeqRecord.t))
    (SeqIO_write : list SeqRecord.t → string)
    (seqkit_seq : Z → Z → Z → string → Z * string)
    (cd_hit : string → float → Z → Z * string * option string)
    (as_completed : list (Future PartitionResult) → list (Future PartitionResult))
    (args : Args float) (fs fs1 : gmap string string) rd mg
    (out2 out3 : string) (cluster : option string) (records2 records3 : list SeqRecord.t) :
  alphabet_stage SeqIO_parse as_completed args fs = (Returned (rd, mg), fs1) →
  skip_length _ args = false →
  skip_cdhit _ args = false →
  seqkit_seq (threads args) (min_len _ args) (max_len _ args)
    (foldl (λ text kept, text +:+ SeqIO_write kept) "" (temp_files mg))
  = (0%Z, out2) →
  SeqIO_parse out2 = Returned records2 →
  cd_hit out2 (identity _ args) (threads args) = (0%Z, out3, cluster) →
  SeqIO_parse out3 = Returned records3 →
  ∃ sm,
    main SeqIO_parse SeqIO_write seqkit_seq cd_hit as_completed args fs
    = (Returned sm,
       <[output args := write_each SeqIO_write (written (rename_duplicates records3))]>
         (match cluster with
          | Some text => <[output args +:+ ".clstr" := text]> fs1
          | None => fs1
          end))
    ∧ step_counts sm !! "after_aa_filter" = Some (Z.of_nat (total_kept mg))
    ∧ step_counts sm !! "after_length_filter" = Some (Z.of_nat (length records2))
    ∧ step_counts sm !! "removed_by_length"
      = Some (Z.of_nat (total_kept mg) - Z.of_nat (length records2))%Z
    ∧ step_counts sm !! "after_cdhit" = Some (Z.of_nat (length records3))
    ∧ step_counts sm !! "removed_by_cdhit"
      = Some (Z.of_nat (length records2) - Z.of_nat (length records3))%Z
    ∧ renamed sm = duplicate_ids (rename_duplicates records3)
    ∧ final sm = length records3.
Proof.
  intros Hstage Hskip2 Hskip3 Htool2 Hparse2 Htool3 Hparse3. unfold alphabet_stage in Hstage. unfold main, main_in.
  rewrite (IO_bind_run _ _ _ _ _ Hstage). cbn beta iota.
  rewrite Hskip2, Hskip3. cbn [negb].
  assert (Hlf : length_filter seqkit_seq
             (foldl (λ text kept, text +:+ SeqIO_write kept) "" (temp_files mg))
             (min_len _ args) (max_len _ args) (threads args) = Returned out2).
  { unfold length_filter. by rewrite Htool2. }
  assert (Hcount2 : count_records SeqIO_parse out2 = Returned (Z.of_nat (length records2))).
  { unfold count_records. by rewrite Hparse2. }
  assert (Hcd : cd_hit_cluster float cd_hit out2 (identity _ args) (threads args)
                = Returned (out3, cluster)).
  { unfold cd_hit_cluster. by rewrite Htool3. }
  assert (Hcount3 : count_records SeqIO_parse out3 = Returned (Z.of_nat (length records3))).
  { unfold count_records. by rewrite Hparse3. }
  rewrite !IO_bind_assoc. rewrite Hlf, IO_lift_bind. cbn beta.
  rewrite !IO_bind_assoc. rewrite Hcount2, IO_lift_bind. cbn beta.
  rewrite IO_ret_bind. cbn beta iota.
  rewrite !IO_bind_assoc. rewrite Hcd, IO_lift_bind. cbn beta iota.
  rewrite !IO_bind_assoc.
  destruct (rename_counters_spec records3) as [_ Hlen].
  destruct cluster as [text|].
  - rewrite IO_write_bind. rewrite !IO_bind_assoc. rewrite Hcount3, IO_lift_bind. cbn beta.
    rewrite IO_ret_bind. cbn beta iota.
    rewrite Hparse3, IO_lift_bind. cbn beta. rewrite IO_write_bind.
    eexists. split; [reflexivity|]. cbn [step_counts renamed final].
    split_and!; try done.
  - rewrite IO_ret_bind. rewrite !IO_bind_assoc. rewrite Hcount3, IO_lift_bind. cbn beta.
    rewrite IO_ret_bind. cbn beta iota.
    rewrite Hparse3, IO_lift_bind. cbn beta. rewrite IO_write_bind.
    eexists. split; [reflexivity|]. cbn [step_counts renamed final].
    split_and!; try done.
Qed.

Lemma main_full_run_witness :
  ∃ mg fs1 sm,
    main sample_parse sample_write sample_seqkit clustering_cd_hit reverse sample_args sample_fs
    = (Returned sm,
       <[output sample_args := write_each sample_write (written (rename_duplicates [seq3; seq1]))]>
         (<[output sample_args +:+ ".clstr" := ">Cluster 0"]> fs1))
    ∧ step_counts sm !! "after_aa_filter" = Some (Z.of_nat (total_kept mg))
    ∧ step_counts sm !! "after_length_filter" = Some (Z.of_nat (length [seq3; seq1]))
    ∧ step_counts sm !! "removed_by_length"
      = Some (Z.of_nat (total_kept mg) - Z.of_nat (length [seq3; seq1]))%Z
    ∧ step_counts sm !! "after_cdhit" = Some (Z.of_nat (length [seq3; seq1]))
    ∧ step_counts sm !! "removed_by_cdhit"
      = Some (Z.of_nat (length [seq3; seq1]) - Z.of_nat (length [seq3; seq1]))%Z
    ∧ renamed sm = duplicate_ids (rename_duplicates [seq3; seq1])
    ∧ final sm = length [seq3; seq1].
Proof.
  do 2 eexists.
  eapply (main_full_run sample_parse sample_write sample_seqkit clustering_cd_hit
            reverse sample_args sample_fs _ _ _ _ _ (Some ">Cluster 0")).
  - vm_compute. reflexivity.
  - reflexivity.
  - reflexivity.
  - vm_compute. reflexivity.
  - vm_compute. reflexivity.
  - vm_compute. reflexivity.
  - vm_compute. reflexivity.
Defined.
